(** * BINA|studio editor core (src/app.js)

    A shallow embedding of the editor logic of [app.js]: the regex-based
    highlighters, the tab model, the gutter and caret computations and the
    Tab-key edit command.

    JavaScript strings are modelled as lists of characters ([list ascii],
    code units below 256); [String.prototype.replace] with a regular
    expression is modelled by a backtracking matcher that follows the
    ECMAScript matching rules for the constructs that occur in [app.js].

    The highlighters are written once, over a character type that carries a
    code and possibly more.  [Plain] instantiates them with bare codes: that
    is the program.  [Traced] instantiates them with codes that remember
    where they come from, which is what the statements about escaping need.

    The page is modelled as far as the editor core reads and writes it: the
    text control with its selection, the highlight layer, the gutter, the
    tab strip and the status labels.  Scroll offsets, focus and style
    classes are left out. *)

From Stdlib Require Import Ascii String DecimalString.
From Stdlib Require Import Arith Bool Lia ZArith List.
Import ListNotations.

Set Implicit Arguments.

(** ** Strings *)

Definition str := list ascii.

Definition lit (s : string) : str := list_ascii_of_string s.

Definition aeqb (a b : ascii) : bool := Ascii.eqb a b.

Fixpoint str_eqb (a b : str) : bool :=
  match a, b with
  | [], [] => true
  | x :: a', y :: b' => aeqb x y && str_eqb a' b'
  | _, _ => false
  end.

(** [s.slice(i, j)] for non-negative integer arguments: both ends are
    clamped to the length, and an inverted range gives the empty string. *)
Definition slice {A} (s : list A) (i j : nat) : list A :=
  firstn (j - i) (skipn i s).

(** [s.slice(i)] *)
Definition slice_from {A} (s : list A) (i : nat) : list A := skipn i s.

(** [s.startsWith(p)] on the remaining text *)
Fixpoint starts_with (p s : str) : bool :=
  match p, s with
  | [], _ => true
  | x :: p', y :: s' => aeqb x y && starts_with p' s'
  | _ :: _, [] => false
  end.

(** [s.includes(p)] *)
Fixpoint includes (s p : str) : bool :=
  starts_with p s ||
  match s with
  | [] => false
  | _ :: s' => includes s' p
  end.

(** [s.endsWith(p)] *)
Definition ends_with (s p : str) : bool := starts_with (rev p) (rev s).

(** Decimal rendering of a non-negative integer, as [String(n)] gives it. *)
Definition dec (n : nat) : str := lit (NilZero.string_of_uint (Nat.to_uint n)).

(** ** Character classes *)

Definition code_of (c : ascii) : nat := nat_of_ascii c.

Definition in_range (lo hi c : ascii) : bool :=
  (code_of lo <=? code_of c) && (code_of c <=? code_of hi).

Definition is_digit (c : ascii) : bool := in_range "0" "9" c.
Definition is_lower (c : ascii) : bool := in_range "a" "z" c.
Definition is_upper (c : ascii) : bool := in_range "A" "Z" c.
Definition is_alpha (c : ascii) : bool := is_lower c || is_upper c.

(** [\w] *)
Definition is_word (c : ascii) : bool := is_alpha c || is_digit c || aeqb c "_".

Definition LF : ascii := ascii_of_nat 10.
Definition CR : ascii := ascii_of_nat 13.
Definition TAB : ascii := ascii_of_nat 9.

(** line terminators ([.] and [$] under the [m] flag look at these) *)
Definition is_line_terminator (c : ascii) : bool := aeqb c LF || aeqb c CR.

(** [\s]: white space and line terminators among the first 256 code units *)
Definition is_space (c : ascii) : bool :=
  let n := code_of c in
  (9 <=? n) && (n <=? 13) || (n =? 32) || (n =? 160).

Definition one_of (s : string) (c : ascii) : bool :=
  existsb (aeqb c) (lit s).

(** ** Regular expressions *)

Inductive regex : Type :=
| RChar (p : ascii -> bool)             (* a literal, a class, or [.] *)
| REmpty
| RSeq (r1 r2 : regex)
| RAlt (r1 r2 : regex)
| RStar (greedy : bool) (r : regex)     (* [r*] and [r*?] *)
| RGroup (n : nat) (r : regex)          (* capturing group number [n] *)
| RBackref (n : nat)                    (* [\n] *)
| RLook (positive : bool) (r : regex)   (* [(?=r)] and [(?!r)] *)
| RWordB                                (* [\b] *)
| REol (multiline : bool).              (* [$] *)

Definition RLit (c : ascii) : regex := RChar (aeqb c).
Definition RAny : regex := RChar (fun _ => true).               (* [\s\S] *)
Definition RDot : regex := RChar (fun c => negb (is_line_terminator c)).

(** [r+], used in app.js on character classes only: one [r], then [r*] *)
Definition RPlus (greedy : bool) (r : regex) : regex := RSeq r (RStar greedy r).

(** [r?], greedy: [r] is tried first, then nothing.  The optional parts in
    app.js cannot match the empty text and hold no capture made earlier, so
    the empty-iteration check and the clearing of captures of the general
    quantifier have nothing to do. *)
Definition ROpt (r : regex) : regex := RAlt r REmpty.

Fixpoint RStr (s : str) : regex :=
  match s with
  | [] => REmpty
  | c :: s' => RSeq (RLit c) (RStr s')
  end.

Fixpoint RSeqs (rs : list regex) : regex :=
  match rs with
  | [] => REmpty
  | [r] => r
  | r :: rs' => RSeq r (RSeqs rs')
  end.

Fixpoint RAlts (rs : list regex) : regex :=
  match rs with
  | [] => RChar (fun _ => false)
  | [r] => r
  | r :: rs' => RAlt r (RAlts rs')
  end.

(** The capturing groups inside a regex (a quantifier clears them at the
    start of each iteration). *)
Fixpoint groups_of (r : regex) : list nat :=
  match r with
  | RSeq a b | RAlt a b => groups_of a ++ groups_of b
  | RStar _ a | RLook _ a => groups_of a
  | RGroup n a => n :: groups_of a
  | _ => []
  end.

(** ** The matcher *)

(** A position in the subject: the text before it (reversed), the text after
    it, and the captures made so far as [(group, (start, end))]. *)
Record mstate : Type := MState {
  pre : str;
  rest : str;
  caps : list (nat * (nat * nat))
}.

Definition pos (st : mstate) : nat := length (pre st).

Definition cont := mstate -> option mstate.

Fixpoint cap_lookup (n : nat) (cs : list (nat * (nat * nat))) : option (nat * nat) :=
  match cs with
  | [] => None
  | (k, v) :: cs' => if k =? n then Some v else cap_lookup n cs'
  end.

Definition cap_clear (ns : list nat) (cs : list (nat * (nat * nat))) :=
  filter (fun kv => negb (existsb (Nat.eqb (fst kv)) ns)) cs.

Definition cap_set (n : nat) (v : nat * nat) (cs : list (nat * (nat * nat))) :=
  (n, v) :: cap_clear [n] cs.

(** the text captured between absolute positions [i] and [j], read back from
    the consumed prefix of [st] *)
Definition captured (st : mstate) (i j : nat) : str :=
  rev (firstn (j - i) (skipn (pos st - j) (pre st))).

Fixpoint advance (n : nat) (st : mstate) : mstate :=
  match n with
  | 0 => st
  | S n' =>
      match rest st with
      | [] => st
      | c :: tl => advance n' (MState (c :: pre st) tl (caps st))
      end
  end.

(** ordered choice: the second alternative is tried only when the first,
    together with everything that follows it, has failed *)
Notation "a <|> b" :=
  (match a with Some x => Some x | None => b end)
  (at level 61, left associativity, only parsing).

(** Repetition.  An iteration that consumes nothing is rejected, so at most
    [length (rest st)] iterations can succeed; [fuel] is set above that. *)
Fixpoint star (fuel : nat) (body : mstate -> cont -> option mstate)
    (inner : list nat) (greedy : bool) (st : mstate) (k : cont) : option mstate :=
  match fuel with
  | 0 => k st
  | S fuel' =>
      let again (_ : unit) :=
        body (MState (pre st) (rest st) (cap_clear inner (caps st)))
             (fun st' => if pos st' =? pos st then None
                         else star fuel' body inner greedy st' k) in
      if greedy then again tt <|> k st else k st <|> again tt
  end.

Definition at_word_char (o : option ascii) : bool :=
  match o with
  | Some c => is_word c
  | None => false
  end.

Fixpoint rmatch (r : regex) (st : mstate) (k : cont) {struct r} : option mstate :=
  match r with
  | RChar p =>
      match rest st with
      | c :: tl => if p c then k (MState (c :: pre st) tl (caps st)) else None
      | [] => None
      end
  | REmpty => k st
  | RSeq a b => rmatch a st (fun st' => rmatch b st' k)
  | RAlt a b => rmatch a st k <|> rmatch b st k
  | RStar g a => star (S (length (rest st))) (rmatch a) (groups_of a) g st k
  | RGroup n a =>
      rmatch a st (fun st' =>
        k (MState (pre st') (rest st') (cap_set n (pos st, pos st') (caps st'))))
  | RBackref n =>
      match cap_lookup n (caps st) with
      | None => k st
      | Some (i, j) =>
          let w := captured st i j in
          if starts_with w (rest st) then k (advance (length w) st) else None
      end
  | RLook true a =>
      match rmatch a st Some with
      | Some st' => k (MState (pre st) (rest st) (caps st'))
      | None => None
      end
  | RLook false a =>
      match rmatch a st Some with
      | Some _ => None
      | None => k st
      end
  | RWordB =>
      if xorb (at_word_char (hd_error (pre st))) (at_word_char (hd_error (rest st)))
      then k st else None
  | REol m =>
      match rest st with
      | [] => k st
      | c :: _ => if m && is_line_terminator c then k st else None
      end
  end.

(** One successful match: where it starts, where it ends, its captures. *)
Record mres : Type := MRes {
  mstart : nat;
  mend : nat;
  mcaps : list (nat * (nat * nat))
}.

(** [RegExpBuiltinExec]: the first position at or after the current one at
    which the pattern matches, with the matcher state at the end of the
    match. *)
Fixpoint exec (r : regex) (p : str) (s : str) : option (mres * mstate) :=
  match rmatch r (MState p s []) Some with
  | Some e => Some (MRes (length p) (pos e) (caps e), e)
  | None =>
      match s with
      | [] => None
      | c :: s' => exec r (c :: p) s'
      end
  end.

(** The matches a global replace visits: after a match the search resumes at
    its end, one character further when the match was empty. *)
Fixpoint scan (fuel : nat) (r : regex) (p : str) (s : str) : list mres :=
  match fuel with
  | 0 => []
  | S fuel' =>
      match exec r p s with
      | None => []
      | Some (m, e) =>
          m :: (if mend m =? mstart m
                then match rest e with
                     | [] => []
                     | c :: tl => scan fuel' r (c :: pre e) tl
                     end
                else scan fuel' r (pre e) (rest e))
      end
  end.

Definition matches (global : bool) (r : regex) (s : str) : list mres :=
  if global then scan (S (S (length s))) r [] s
  else match exec r [] s with
       | Some (m, _) => [m]
       | None => []
       end.

(** ** Replacement *)

(** Where a character of a highlighter's output comes from.  The program
    itself only sees character codes; the origin is bookkeeping that lets
    the development say which characters are the input's and which were
    written by the highlighter. *)
Inductive origin : Type :=
| Source     (* copied from the text given to the highlighter *)
| Entity     (* written by [escapeHtml]: [&amp;], [&lt;], [&gt;] *)
| Tag        (* part of an inserted span tag, opening or closing *)
| Glue.      (* other text written by a replacement *)

Definition dq : ascii := ascii_of_nat 34.

Section Markup.

(** The character type [A] carries a code and may carry more; [mk] builds
    a character written by the program. *)
Variable A : Type.
Variable code : A -> ascii.
Variable mk : origin -> ascii -> A.

Definition text := list A.

Definition put (o : origin) (s : str) : text := map (mk o) s.

(** What a replacement sees of a match. *)
Record minfo : Type := MInfo {
  whole : text;                    (* [$&], the callback's first argument *)
  group : nat -> option text;      (* [$n], the callback's group arguments *)
  index : nat                      (* the callback's offset argument *)
}.

Definition info_of (s : text) (m : mres) : minfo :=
  MInfo (slice s (mstart m) (mend m))
        (fun n => match cap_lookup n (mcaps m) with
                  | Some (i, j) => Some (slice s i j)
                  | None => None
                  end)
        (mstart m).

(** [$n] in a replacement string: a group that took no part gives the
    empty string. *)
Definition dollar (mi : minfo) (n : nat) : text :=
  match group mi n with
  | Some g => g
  | None => []
  end.

(** A group handed to a replacement callback and spliced into a template
    literal: a group that took no part reads [undefined]. *)
Definition arg (mi : minfo) (n : nat) : text :=
  match group mi n with
  | Some g => g
  | None => put Glue (lit "undefined")
  end.

(** The result of [replace]: the text between the matches is kept, each
    match is replaced by what [f] gives for it.  [cur] is the position in
    the subject at which [tl] starts. *)
Fixpoint assemble (f : minfo -> text) (s : text) (ms : list mres)
    (cur : nat) (tl : text) : text :=
  match ms with
  | [] => tl
  | m :: ms' =>
      firstn (mstart m - cur) tl ++ f (info_of s m) ++
      assemble f s ms' (mend m) (skipn (mend m - cur) tl)
  end.

(** [s.replace(r, f)]; [global] is the [g] flag. *)
Definition replace (global : bool) (r : regex) (f : minfo -> text) (s : text) : text :=
  assemble f s (matches global r (map code s)) 0 s.

Definition span_open (kind : string) : text :=
  put Tag (lit "<span class=" ++ dq :: lit "token-" ++ lit kind ++ dq :: lit ">").

Definition span_close : text := put Tag (lit "</span>").

Definition span (kind : string) (body : text) : text :=
  span_open kind ++ body ++ span_close.

(** *** escapeHtml (app.js 205-207) *)
Definition escapeHtml (s : text) : text :=
  replace true (RLit ">") (fun _ => put Entity (lit "&gt;"))
    (replace true (RLit "<") (fun _ => put Entity (lit "&lt;"))
      (replace true (RLit "&") (fun _ => put Entity (lit "&amp;")) s)).

(** *** highlightJS (app.js 209-221) *)

(* /(\/\*[\s\S]*?\*\/|\/\/.*$)/gm *)
Definition re_js_comment : regex :=
  RGroup 1 (RAlt (RSeqs [RStr (lit "/*"); RStar false RAny; RStr (lit "*/")])
                 (RSeqs [RStr (lit "//"); RStar true RDot; REol true])).

(* app.js 215: a quote character (single, double or backtick) as group 1;
   as group 2 any run of escaped characters and of characters at which
   group 1 does not match; then group 1 again; flag g *)
Definition re_js_string : regex :=
  RSeqs [RGroup 1 (RChar (fun c => aeqb c "'" || aeqb c dq || aeqb c "`"));
         RGroup 2 (RStar true (RAlt (RSeq (RLit "\") RDot)
                                    (RSeq (RLook false (RBackref 1)) RDot)));
         RBackref 1].

(* /\b(\d+(\.\d+)?)\b/g *)
Definition re_js_number : regex :=
  RSeqs [RWordB;
         RGroup 1 (RSeq (RPlus true (RChar is_digit))
                        (ROpt (RGroup 2 (RSeq (RLit ".") (RPlus true (RChar is_digit))))));
         RWordB].

Definition js_keywords : list string :=
  ["const"; "let"; "var"; "function"; "return"; "if"; "else"; "for"; "while";
   "switch"; "case"; "break"; "new"; "class"; "extends"; "import"; "from";
   "export"; "default"; "try"; "catch"]%string.

(* /\b(const|let|...|catch)\b/g *)
Definition re_js_keyword : regex :=
  RSeqs [RWordB; RGroup 1 (RAlts (map (fun k => RStr (lit k)) js_keywords)); RWordB].

Definition highlightJS (code_ : text) : text :=
  let out := escapeHtml code_ in
  let out := replace true re_js_comment (fun m => span "comment" (dollar m 1)) out in
  let out := replace true re_js_string (fun m => span "string" (whole m)) out in
  let out := replace true re_js_number (fun m => span "number" (dollar m 1)) out in
  let out := replace true re_js_keyword (fun m => span "keyword" (dollar m 1)) out in
  out.

(** *** highlightCSS (app.js 223-233)

    Line 226 reads [out.replace(/\/\*[\s\S]*?\*\/g, ...)]: the slash that
    should close the comment pattern is escaped, so the pattern runs on
    through the letter g.  The embedding takes the line the way the design
    notes of the specification read it: the pattern ends with the literal
    text star, slash, g.  Whether the call then still counts as global is
    left open by [global_comment]. *)

Definition re_css_comment : regex :=
  RSeqs [RStr (lit "/*"); RStar false RAny; RStr (lit "*/g")].

(* /([.#]?[A-Za-z0-9\-_]+)(?=\s*\{)/g *)
Definition re_css_selector : regex :=
  RSeq (RGroup 1 (RSeq (ROpt (RChar (one_of ".#")))
                       (RPlus true (RChar (fun c => is_alpha c || is_digit c || one_of "-_" c)))))
       (RLook true (RSeq (RStar true (RChar is_space)) (RLit "{"))).

(* /([a-z-]+)(?=\s*:)/g *)
Definition re_css_property : regex :=
  RSeq (RGroup 1 (RPlus true (RChar (fun c => is_lower c || aeqb c "-"))))
       (RLook true (RSeq (RStar true (RChar is_space)) (RLit ":"))).

(* /:\s*([^;}\n]+)/g *)
Definition re_css_value : regex :=
  RSeqs [RLit ":"; RStar true (RChar is_space);
         RGroup 1 (RPlus true (RChar (fun c => negb (one_of ";}" c || aeqb c LF))))].

(* /(\d+)(px|em|rem|%)/g *)
Definition re_css_unit : regex :=
  RSeq (RGroup 1 (RPlus true (RChar is_digit)))
       (RGroup 2 (RAlts [RStr (lit "px"); RStr (lit "em"); RStr (lit "rem"); RStr (lit "%")])).

Definition highlightCSS_with (global_comment : bool) (code_ : text) : text :=
  let out := escapeHtml code_ in
  let out := replace global_comment re_css_comment (fun m => span "comment" (whole m)) out in
  let out := replace true re_css_selector (fun m => span "tag" (dollar m 1)) out in
  let out := replace true re_css_property (fun m => span "attr" (dollar m 1)) out in
  let out := replace true re_css_value
               (fun m => put Glue (lit ": ") ++ span "string" (escapeHtml (arg m 1))) out in
  let out := replace true re_css_unit (fun m => span "number" (dollar m 1) ++ dollar m 2) out in
  out.

Definition highlightCSS : text -> text := highlightCSS_with false.

(** *** highlightHTML (app.js 235-247) *)

(* /(&lt;!--[\s\S]*?--&gt;)/g *)
Definition re_html_comment : regex :=
  RGroup 1 (RSeqs [RStr (lit "&lt;!--"); RStar false RAny; RStr (lit "--&gt;")]).

(* /(&lt;\/?[a-zA-Z0-9\-]+)([^&]*?)(&gt;)/g *)
Definition re_html_tag : regex :=
  RSeqs [RGroup 1 (RSeqs [RStr (lit "&lt;"); ROpt (RLit "/");
                          RPlus true (RChar (fun c => is_alpha c || is_digit c || aeqb c "-"))]);
         RGroup 2 (RStar false (RChar (fun c => negb (aeqb c "&"))));
         RGroup 3 (RStr (lit "&gt;"))].

(* app.js 241: one or more letters, hyphens or colons as group 1,
   optionally followed by group 2, an equals sign and a double-quoted
   value; flag g *)
Definition re_html_attr : regex :=
  RSeq (RGroup 1 (RPlus true (RChar (fun c => is_alpha c || one_of "-:" c))))
       (ROpt (RGroup 2 (RSeqs [RLit "="; RLit dq;
                               RStar true (RChar (fun c => negb (aeqb c dq)));
                               RLit dq]))).

(* /(&lt;script[\s\S]*?&gt;)([\s\S]*?)(&lt;\/script&gt;)/g *)
Definition re_html_script : regex :=
  RSeqs [RGroup 1 (RSeqs [RStr (lit "&lt;script"); RStar false RAny; RStr (lit "&gt;")]);
         RGroup 2 (RStar false RAny);
         RGroup 3 (RStr (lit "&lt;/script&gt;"))].

(** The callback of the tag rule is declared [(m, p1, tag, attrs, p4)]
    for a pattern with three groups: [tag] receives group 2, [attrs]
    group 3 and [p4] the offset of the match. *)
Definition html_tag_callback (m : minfo) : text :=
  let p1 := arg m 1 in
  let tag := arg m 2 in
  let attrs := arg m 3 in
  let p4 := put Glue (dec (index m)) in
  let attrsHtml :=
    replace true re_html_attr (fun a => span "attr" (dollar a 1) ++ dollar a 2) attrs in
  p1 ++ span "tag" tag ++ attrsHtml ++ p4.

Definition highlightHTML (code_ : text) : text :=
  let out := escapeHtml code_ in
  let out := replace true re_html_comment (fun m => span "comment" (dollar m 1)) out in
  let out := replace true re_html_tag html_tag_callback out in
  let out := replace true re_html_script
               (fun m => arg m 1 ++ span "string" (escapeHtml (arg m 2)) ++ arg m 3) out in
  out.

(** *** highlightByMode (app.js 250-256) *)
Definition highlightByMode (code_ : text) (mode : str) : text :=
  if str_eqb mode (lit "js") then highlightJS code_
  else if str_eqb mode (lit "css") then highlightCSS code_
  else if str_eqb mode (lit "html") then highlightHTML code_
  else escapeHtml code_.

End Markup.

Definition plain_code (c : ascii) : ascii := c.
Definition plain_mk (_ : origin) (c : ascii) : ascii := c.

(** The program as it runs: characters are their codes. *)
Module Plain.
Definition escapeHtml : str -> str := escapeHtml plain_code plain_mk.
Definition highlightJS : str -> str := highlightJS plain_code plain_mk.
Definition highlightCSS_with : bool -> str -> str := highlightCSS_with plain_code plain_mk.
Definition highlightCSS : str -> str := highlightCSS plain_code plain_mk.
Definition highlightHTML : str -> str := highlightHTML plain_code plain_mk.
Definition highlightByMode : str -> str -> str := highlightByMode plain_code plain_mk.
Definition replace : bool -> regex -> (minfo ascii -> str) -> str -> str :=
  replace plain_code.
End Plain.

(** The same program run on characters that remember their origin. *)
Definition tchar : Type := (ascii * origin)%type.
Definition tcode (c : tchar) : ascii := fst c.
Definition torigin (c : tchar) : origin := snd c.
Definition tmk (o : origin) (c : ascii) : tchar := (c, o).

Module Traced.
Definition source (s : str) : list tchar := map (tmk Source) s.
Definition erase (s : list tchar) : str := map tcode s.
Definition escapeHtml : list tchar -> list tchar := escapeHtml tcode tmk.
Definition highlightJS : list tchar -> list tchar := highlightJS tcode tmk.
Definition highlightCSS_with : bool -> list tchar -> list tchar := highlightCSS_with tcode tmk.
Definition highlightCSS : list tchar -> list tchar := highlightCSS tcode tmk.
Definition highlightHTML : list tchar -> list tchar := highlightHTML tcode tmk.
Definition highlightByMode : list tchar -> str -> list tchar := highlightByMode tcode tmk.
End Traced.

(** ** Text-surface helpers *)

(** [s.split('\n')] *)
Fixpoint split_on (sep : ascii) (s : str) : list str :=
  match s with
  | [] => [[]]
  | c :: s' =>
      if aeqb c sep then [] :: split_on sep s'
      else match split_on sep s' with
           | l :: ls => (c :: l) :: ls
           | [] => [[c]]
           end
  end.

(** [s.lastIndexOf('\n')], -1 when there is none *)
Fixpoint lastIndexOf_from (c : ascii) (s : str) (i : nat) (found : Z) : Z :=
  match s with
  | [] => found
  | x :: s' => lastIndexOf_from c s' (S i) (if aeqb x c then Z.of_nat i else found)
  end.

Definition lastIndexOf (c : ascii) (s : str) : Z := lastIndexOf_from c s 0 (-1)%Z.

Definition decZ (z : Z) : str := lit (NilZero.string_of_int (Z.to_int z)).

(** [a || b] on strings: the empty string and a missing value are falsy *)
Definition str_or (a : option str) (b : str) : str :=
  match a with
  | Some (c :: a') => c :: a'
  | _ => b
  end.

(** detectLanguage (app.js 71-78) *)
Definition detectLanguage (name : str) : str :=
  match name with
  | [] => lit "plaintext"
  | _ =>
      if ends_with name (lit ".html") || ends_with name (lit ".htm") then lit "html"
      else if ends_with name (lit ".css") then lit "css"
      else if ends_with name (lit ".js") then lit "js"
      else if ends_with name (lit ".md") then lit "md"
      else lit "plaintext"
  end.

(** ** The document model *)

Record FileNode : Type := {
  node_name : str;
  node_language : option str;
  node_content : option str
}.

Record Tab : Type := {
  tab_id : str;
  tab_name : str;
  tab_language : str;
  tab_content : str
}.

(** The two module-level variables of app.js together with the parts of the
    page the editor core reads and writes. *)
Record Session : Type := {
  openTabs : list Tab;
  activeTabId : option str;
  editorValue : str;                 (* editorTA.value *)
  selectionStart : nat;              (* editorTA.selectionStart *)
  selectionEnd : nat;                (* editorTA.selectionEnd *)
  editorTabId : option str;          (* editorTA.dataset.tabId *)
  highlightMarkup : str;             (* highlightPre.innerHTML *)
  gutter : list str;                 (* the children written to gutterEl *)
  tabStrip : list (str * bool);      (* the buttons in tabsEl: label, active *)
  statusFile : str;
  statusPos : str;
  statusMode : str;
  raf : bool                         (* a highlight is scheduled *)
}.

Definition initial : Session :=
  {| openTabs := []; activeTabId := None; editorValue := []; selectionStart := 0;
     selectionEnd := 0; editorTabId := None; highlightMarkup := []; gutter := [];
     tabStrip := []; statusFile := []; statusPos := []; statusMode := [];
     raf := false |}.

Definition with_tabs (ts : list Tab) (a : option str) (s : Session) : Session :=
  {| openTabs := ts; activeTabId := a; editorValue := editorValue s;
     selectionStart := selectionStart s; selectionEnd := selectionEnd s;
     editorTabId := editorTabId s; highlightMarkup := highlightMarkup s;
     gutter := gutter s; tabStrip := tabStrip s; statusFile := statusFile s;
     statusPos := statusPos s; statusMode := statusMode s; raf := raf s |}.

Definition with_editor (v : str) (a b : nat) (s : Session) : Session :=
  {| openTabs := openTabs s; activeTabId := activeTabId s; editorValue := v;
     selectionStart := a; selectionEnd := b;
     editorTabId := editorTabId s; highlightMarkup := highlightMarkup s;
     gutter := gutter s; tabStrip := tabStrip s; statusFile := statusFile s;
     statusPos := statusPos s; statusMode := statusMode s; raf := raf s |}.

Definition with_editorTabId (i : option str) (s : Session) : Session :=
  {| openTabs := openTabs s; activeTabId := activeTabId s; editorValue := editorValue s;
     selectionStart := selectionStart s; selectionEnd := selectionEnd s;
     editorTabId := i; highlightMarkup := highlightMarkup s;
     gutter := gutter s; tabStrip := tabStrip s; statusFile := statusFile s;
     statusPos := statusPos s; statusMode := statusMode s; raf := raf s |}.

Definition with_highlight (h : str) (s : Session) : Session :=
  {| openTabs := openTabs s; activeTabId := activeTabId s; editorValue := editorValue s;
     selectionStart := selectionStart s; selectionEnd := selectionEnd s;
     editorTabId := editorTabId s; highlightMarkup := h;
     gutter := gutter s; tabStrip := tabStrip s; statusFile := statusFile s;
     statusPos := statusPos s; statusMode := statusMode s; raf := raf s |}.

Definition with_gutter (g : list str) (s : Session) : Session :=
  {| openTabs := openTabs s; activeTabId := activeTabId s; editorValue := editorValue s;
     selectionStart := selectionStart s; selectionEnd := selectionEnd s;
     editorTabId := editorTabId s; highlightMarkup := highlightMarkup s;
     gutter := g; tabStrip := tabStrip s; statusFile := statusFile s;
     statusPos := statusPos s; statusMode := statusMode s; raf := raf s |}.

Definition with_tabStrip (b : list (str * bool)) (s : Session) : Session :=
  {| openTabs := openTabs s; activeTabId := activeTabId s; editorValue := editorValue s;
     selectionStart := selectionStart s; selectionEnd := selectionEnd s;
     editorTabId := editorTabId s; highlightMarkup := highlightMarkup s;
     gutter := gutter s; tabStrip := b; statusFile := statusFile s;
     statusPos := statusPos s; statusMode := statusMode s; raf := raf s |}.

Definition with_statusFile (t : str) (s : Session) : Session :=
  {| openTabs := openTabs s; activeTabId := activeTabId s; editorValue := editorValue s;
     selectionStart := selectionStart s; selectionEnd := selectionEnd s;
     editorTabId := editorTabId s; highlightMarkup := highlightMarkup s;
     gutter := gutter s; tabStrip := tabStrip s; statusFile := t;
     statusPos := statusPos s; statusMode := statusMode s; raf := raf s |}.

Definition with_statusPos (t : str) (s : Session) : Session :=
  {| openTabs := openTabs s; activeTabId := activeTabId s; editorValue := editorValue s;
     selectionStart := selectionStart s; selectionEnd := selectionEnd s;
     editorTabId := editorTabId s; highlightMarkup := highlightMarkup s;
     gutter := gutter s; tabStrip := tabStrip s; statusFile := statusFile s;
     statusPos := t; statusMode := statusMode s; raf := raf s |}.

Definition with_statusMode (t : str) (s : Session) : Session :=
  {| openTabs := openTabs s; activeTabId := activeTabId s; editorValue := editorValue s;
     selectionStart := selectionStart s; selectionEnd := selectionEnd s;
     editorTabId := editorTabId s; highlightMarkup := highlightMarkup s;
     gutter := gutter s; tabStrip := tabStrip s; statusFile := statusFile s;
     statusPos := statusPos s; statusMode := t; raf := raf s |}.

Definition with_raf (r : bool) (s : Session) : Session :=
  {| openTabs := openTabs s; activeTabId := activeTabId s; editorValue := editorValue s;
     selectionStart := selectionStart s; selectionEnd := selectionEnd s;
     editorTabId := editorTabId s; highlightMarkup := highlightMarkup s;
     gutter := gutter s; tabStrip := tabStrip s; statusFile := statusFile s;
     statusPos := statusPos s; statusMode := statusMode s; raf := r |}.

(** *** The text control

    The three setters behave as the HTML standard prescribes for a
    textarea. *)

(** set the selection range: both ends are clamped to the length of the
    value, and a range whose end is not past its start collapses at its end *)
Definition setSelectionRange (a b : nat) (s : Session) : Session :=
  let n := length (editorValue s) in
  let a' := Nat.min a n in
  let b' := Nat.min b n in
  if b' <=? a' then with_editor (editorValue s) b' b' s
  else with_editor (editorValue s) a' b' s.

Definition set_selectionEnd (v : nat) (s : Session) : Session :=
  setSelectionRange (selectionStart s) v s.

Definition set_selectionStart (v : nat) (s : Session) : Session :=
  setSelectionRange v (Nat.max (selectionEnd s) v) s.

(** assigning [value]: when the text changes, the caret goes to its end *)
Definition set_value (v : str) (s : Session) : Session :=
  if str_eqb v (editorValue s) then s
  else with_editor v (length v) (length v) s.

(** [activeTabId === id] *)
Definition same_id (a : option str) (id : str) : bool :=
  match a with
  | Some i => str_eqb i id
  | None => false
  end.

(** [t => t.id === activeTabId] *)
Definition id_is (a : option str) (t : Tab) : bool := same_id a (tab_id t).

(** truthiness of [activeTabId]: null and the empty string are falsy *)
Definition truthy (a : option str) : bool :=
  match a with
  | Some (_ :: _) => true
  | _ => false
  end.

(** [findIndex] *)
Fixpoint findIndex {A} (p : A -> bool) (l : list A) : option nat :=
  match l with
  | [] => None
  | x :: l' => if p x then Some 0 else option_map S (findIndex p l')
  end.

(** [splice(idx, 1)] *)
Fixpoint remove_at {A} (idx : nat) (l : list A) : list A :=
  match idx, l with
  | _, [] => []
  | 0, _ :: l' => l'
  | S i, x :: l' => x :: remove_at i l'
  end.

(** What a handler leaves behind: a new state, or an exception. *)
Inductive result (A : Type) : Type :=
| Ok (a : A)
| Throw (e : string).
Arguments Ok {A} a.
Arguments Throw {A} e.

(** updateGutter (app.js 289-293) *)
Definition gutterLines (value : str) : nat :=
  match length (split_on LF value) with
  | 0 => 1
  | n => n
  end.

Definition updateGutter (s : Session) : Session :=
  let lines := gutterLines (editorValue s) in
  with_gutter (map (fun i => lit "<div>" ++ dec (i + 1) ++ lit "</div>") (seq 0 lines)) s.

(** updateCaretStatus (app.js 298-304): line and column of offset [p] *)
Definition caretLine (value : str) (p : nat) : nat :=
  length (split_on LF (slice value 0 p)).

Definition caretCol (value : str) (p : nat) : Z :=
  (Z.of_nat p - lastIndexOf LF (slice value 0 p))%Z.

Definition updateCaretStatus (s : Session) : Session :=
  let p := selectionStart s in
  with_statusPos (lit "Ln " ++ dec (caretLine (editorValue s) p) ++ lit ", Col "
                  ++ decZ (caretCol (editorValue s) p)) s.

(** scheduleHighlight (app.js 265-284): the pending frame replaces any
    earlier one; [runHighlight] is the callback the frame runs. *)
Definition scheduleHighlight (s : Session) : Session := with_raf true s.

(** [tab.content = code] on the object that [find] returned *)
Fixpoint store_content (a : option str) (c : str) (ts : list Tab) : list Tab :=
  match ts with
  | [] => []
  | t :: ts' =>
      if id_is a t
      then {| tab_id := tab_id t; tab_name := tab_name t;
              tab_language := tab_language t; tab_content := c |} :: ts'
      else t :: store_content a c ts'
  end.

Definition runHighlight (s : Session) : Session :=
  let s := with_raf false s in
  let tab := find (id_is (activeTabId s)) (openTabs s) in
  let mode := match tab with Some t => tab_language t | None => lit "plaintext" end in
  let code_ := Plain.replace true (RLit TAB) (fun _ => lit "  ") (editorValue s) in
  let s := with_tabs (store_content (activeTabId s) code_ (openTabs s)) (activeTabId s) s in
  let highlighted := Plain.highlightByMode code_ mode in
  let s := with_highlight
             (match highlighted with
              | [] => lit "<span class=" ++ dq :: lit "muted" ++ dq :: lit ">// empty</span>"
              | _ => highlighted
              end) s in
  updateCaretStatus (updateGutter s).

Section Tabs.

(** [String.prototype.toUpperCase], a built-in. *)
Variable toUpperCase : str -> str.

(** [renderTabs] ends by calling [updateStatusFile], which app.js does not
    define; it is taken as given, as a function that computes the text of
    the status-file label. *)
Variable updateStatusFile : Session -> str.

(** renderTabs (app.js 150-169) *)
Definition renderTabs (s : Session) : Session :=
  let s := with_tabStrip
             (map (fun t => (tab_name t, id_is (activeTabId s) t)) (openTabs s)) s in
  with_statusFile (updateStatusFile s) s.

(** loadTabContent (app.js 187-199) *)
Definition loadTabContent (tab : Tab) (s : Session) : Session :=
  let s := set_value (tab_content tab) s in
  let s := with_editorTabId (Some (tab_id tab)) s in
  let s := with_statusMode (toUpperCase (tab_language tab)) s in
  let s := with_statusFile (tab_name tab) s in
  let s := scheduleHighlight s in
  updateGutter s.

(** uid (app.js 68); [rnd] is what
    [Math.random().toString(36).slice(2,9)] gave. *)
Definition uid (p rnd : str) : str := p ++ lit "-" ++ rnd.

(** createTab (app.js 132-139) *)
Definition createTab (fileNode : FileNode) (rnd : str) (s : Session) : Session :=
  let id := uid (node_name fileNode) rnd in
  let tab := {| tab_id := id;
                tab_name := node_name fileNode;
                tab_language := str_or (node_language fileNode)
                                       (detectLanguage (node_name fileNode));
                tab_content := str_or (node_content fileNode) [] |} in
  let s := with_tabs (openTabs s ++ [tab]) (Some id) s in
  let s := renderTabs s in
  loadTabContent tab s.

(** openFileTab (app.js 141-148) *)
Definition openFileTab (node : FileNode) (rnd : str) (s : Session) : Session :=
  match find (fun t => str_eqb (tab_name t) (node_name node)) (openTabs s) with
  | Some existing =>
      let s := with_tabs (openTabs s) (Some (tab_id existing)) s in
      let s := renderTabs s in
      loadTabContent existing s
  | None => createTab node rnd s
  end.

(** the click handler of the [i]-th tab button (app.js 158); the strip is
    rebuilt after every change of [openTabs], so button [i] holds tab [i] *)
Definition clickTab (i : nat) (s : Session) : Session :=
  match nth_error (openTabs s) i with
  | Some t =>
      let s := with_tabs (openTabs s) (Some (tab_id t)) s in
      let s := loadTabContent t s in
      renderTabs s
  | None => s
  end.

(** closeTab (app.js 171-182) *)
Definition closeTab (id : str) (s : Session) : result Session :=
  match findIndex (fun t => str_eqb (tab_id t) id) (openTabs s) with
  | None => Ok s
  | Some idx =>
      let tabs := remove_at idx (openTabs s) in
      let s := with_tabs tabs (activeTabId s) s in
      if same_id (activeTabId s) id then
        let a := match (match idx with 0 => None | S j => nth_error tabs j end) with
                 | Some t => Some (tab_id t)
                 | None => match nth_error tabs 0 with
                           | Some t => Some (tab_id t)
                           | None => None
                           end
                 end in
        let s := with_tabs tabs a s in
        if truthy a then
          match find (id_is a) tabs with
          | Some t => Ok (renderTabs (loadTabContent t s))
          | None => Throw "TypeError"
          end
        else
          let s := set_value [] s in
          let s := with_highlight [] s in
          let s := updateGutter s in
          let s := with_statusFile (lit "No file") s in
          let s := with_statusMode (lit "Plain Text") s in
          Ok (renderTabs s)
      else Ok (renderTabs s)
  end.

(** The Tab key in the editor (app.js 310-320). *)
Definition keydownTab (s : Session) : Session :=
  let start := selectionStart s in
  let end_ := selectionEnd s in
  let val := editorValue s in
  let s := set_value (slice val 0 start ++ lit "  " ++ slice_from val end_) s in
  let s := set_selectionEnd (start + 2) s in
  let s := set_selectionStart (start + 2) s in
  scheduleHighlight s.

(** What can happen to a session. *)
Inductive event : Type :=
| EOpenFile (node : FileNode) (rnd : str)     (* a file of the tree is chosen *)
| ECloseTab (id : str)
| EClickTab (i : nat)
| EKeyTab
| EInput (v : str) (a b : nat)                (* the user edits the text *)
| ECaret (a b : nat)                          (* click or keyup in the text *)
| EFrame.                                     (* the animation frame fires *)

Definition handle (e : event) (s : Session) : result Session :=
  match e with
  | EOpenFile node rnd => Ok (openFileTab node rnd s)
  | ECloseTab id => closeTab id s
  | EClickTab i => Ok (clickTab i s)
  | EKeyTab => Ok (keydownTab s)
  | EInput v a b =>
      Ok (scheduleHighlight (setSelectionRange a b (with_editor v 0 0 s)))
  | ECaret a b => Ok (updateCaretStatus (setSelectionRange a b s))
  | EFrame => Ok (if raf s then runHighlight s else s)
  end.

End Tabs.

(** ** The invariant of the document model and sample data *)

Local Open Scope string_scope.
Local Open Scope list_scope.
Local Open Scope nat_scope.

(** [activeTabId] is null or the id of an open tab *)
Definition active_ok (s : Session) : Prop :=
  match activeTabId s with
  | None => True
  | Some i => In i (map tab_id (openTabs s))
  end.

(** no two open tabs have the same name *)
Definition names_distinct (s : Session) : Prop :=
  NoDup (map tab_name (openTabs s)).

Definition Inv (s : Session) : Prop := active_ok s /\ names_distinct s.

(** Modelled from the spec: [updateStatusFile] is called by [renderTabs] and
    defined nowhere in app.js.  The specification has the status show the
    active file, and the text No file when no tab is open. *)
Definition statusFileLabel (s : Session) : str :=
  match find (id_is (activeTabId s)) (openTabs s) with
  | Some t => tab_name t
  | None => lit "No file"
  end.

(** upper case for the letters a to z, enough for the language tags *)
Definition upper_ascii (s : str) : str :=
  map (fun c => if is_lower c then ascii_of_nat (code_of c - 32) else c) s.

Definition sample_node : FileNode :=
  {| node_name := lit "app.js"; node_language := Some (lit "js");
     node_content := Some (lit "// Tiny demo app") |}.

Definition sample_tab (name : string) : Tab :=
  {| tab_id := lit name ++ lit "-k3x9q2a"; tab_name := lit name;
     tab_language := detectLanguage (lit name); tab_content := lit "x" |}.

Definition sample_session (names : list string) (active : string) : Session :=
  with_tabs (map sample_tab names) (Some (tab_id (sample_tab active))) initial.

(** the text a, line feed, b, line feed, c *)
Definition text_abc : str := lit "a" ++ LF :: lit "b" ++ LF :: lit "c".

(** a text written with ~ standing for the double quote *)
Definition quoted (s : string) : str :=
  map (fun c => if aeqb c "~" then dq else c) (lit s).

(** a token wrapped in an intact span of class [token-kind] *)
Definition wrapped (kind body : string) : str := span plain_mk kind (lit body).

(** ** Reading the traced output *)

(** the matches of a one-character pattern: every position, counted from
    [i], whose character is in the class *)
Fixpoint hits (p : ascii -> bool) (i : nat) (s : str) : list mres :=
  match s with
  | [] => []
  | c :: s' => if p c then MRes i (S i) [] :: hits p (S i) s' else hits p (S i) s'
  end.

(** what [escapeHtml] writes for one character *)
Definition escape_char {A} (code : A -> ascii) (mk : origin -> ascii -> A) (a : A) : list A :=
  if aeqb "&" (code a) then put mk Entity (lit "&amp;")
  else if aeqb "<" (code a) then put mk Entity (lit "&lt;")
  else if aeqb ">" (code a) then put mk Entity (lit "&gt;")
  else [a].

Definition is_angle (c : ascii) : bool := aeqb c "<" || aeqb c ">".

Definition is_special (c : ascii) : bool := aeqb c "&" || is_angle c.

(** A traced character is in order when it is part of an inserted span tag,
    or is no angle bracket and, if it was copied from the input, no
    ampersand either. *)
Definition in_order (c : tchar) : bool :=
  match torigin c with
  | Tag => true
  | Source => negb (is_special (tcode c))
  | Entity | Glue => negb (is_angle (tcode c))
  end.

(** every character of a traced text is in order *)
Definition InOrder (s : list tchar) : Prop := Forall (fun c => in_order c = true) s.

(** [st'] lies ahead of [st] in the same subject *)
Definition forward (st st' : mstate) : Prop :=
  exists w, pre st' = rev w ++ pre st /\ rest st = w ++ rest st'.

(** ** Reading a match, for the checks of the matcher *)

(** a match and the groups [ns], written between brackets and separated by
    bars; a group that took no part reads undefined *)
Definition show_match (ns : list nat) (m : minfo ascii) : str :=
  lit "[" ++ whole m ++
  concat (map (fun n => lit "|" ++ match group m n with
                                   | Some g => g
                                   | None => lit "undefined"
                                   end) ns) ++
  lit "]".

Definition replace_all (r : regex) (f : minfo ascii -> str) (s : string) : str :=
  Plain.replace true r f (lit s).

(** the tab that takes over when the active tab, standing between [before]
    and [after], is closed: the one before it, else the one after it *)
Definition successor (before after : list Tab) : option Tab :=
  match rev before, after with
  | p :: _, _ => Some p
  | [], q :: _ => Some q
  | [], [] => None
  end.

(** ** The file tree (app.js 14-44, 371-376, 396-410) *)

(** an entry of [sampleFiles]: a file, or a folder with its children *)
#[warnings="-register-all"]
Inductive TreeNode : Type :=
| TFile (f : FileNode)
| TFolder (name : str) (expanded : bool) (children : list TreeNode).

(** findFirstFile (app.js 398-407): the nodes are visited in order, a folder
    is searched before the nodes that follow it *)
Fixpoint firstFileIn (n : TreeNode) : option FileNode :=
  match n with
  | TFile f => Some f
  | TFolder _ _ children =>
      (fix go (l : list TreeNode) : option FileNode :=
         match l with
         | [] => None
         | x :: l' => match firstFileIn x with
                      | Some r => Some r
                      | None => go l'
                      end
         end) children
  end.

Fixpoint findFirstFile (nodes : list TreeNode) : option FileNode :=
  match nodes with
  | [] => None
  | n :: nodes' => match firstFileIn n with
                   | Some r => Some r
                   | None => findFirstFile nodes'
                   end
  end.

(** the files of a tree, depth first *)
Fixpoint filesOf (n : TreeNode) : list FileNode :=
  match n with
  | TFile f => [f]
  | TFolder _ _ children => flat_map filesOf children
  end.


(** the click handler of the new-file button (app.js 371-376); [now] is what
    [Date.now()] gave *)
Definition newFileNode (now : nat) : FileNode :=
  {| node_name := lit "untitled-" ++ dec now ++ lit ".js";
     node_language := Some (lit "js");
     node_content := Some (lit "// new file") |}.

Definition newFile (now : nat) (tree : list TreeNode) : list TreeNode :=
  tree ++ [TFile (newFileNode now)].

(** ** The Enter key (app.js 322-335) *)

Definition is_indent_char (c : ascii) : bool := aeqb c " " || aeqb c TAB.

(** The pattern of line 326: as group 1 the start of the text or a line
    feed, as group 2 a run of spaces and tabs, then a run of characters
    other than the line feed, up to the end of the text; no flag.  The
    start-of-text assertion holds at offset 0 and nowhere else: [at_start]
    says which of the two the pattern is tried at. *)
Definition re_enter (at_start : bool) : regex :=
  RSeqs [RGroup 1 (RAlt (if at_start then REmpty else RChar (fun _ => false)) (RLit LF));
         RGroup 2 (RStar true (RChar is_indent_char));
         RStar true (RChar (fun c => negb (aeqb c LF)));
         REol false].

(** [upto.match(...)]: the pattern is tried at offset 0, then at each later
    offset in turn *)
Definition match_enter (upto : str) : option mres :=
  match rmatch (re_enter true) (MState [] upto []) Some with
  | Some e => Some (MRes 0 (pos e) (caps e))
  | None =>
      match upto with
      | [] => None
      | c :: upto' => option_map fst (exec (re_enter false) [c] upto')
      end
  end.

(** what the keydown handler computes before the line feed is inserted:
    [lastLineMatch ? lastLineMatch[2] : ''] *)
Definition enterIndent (s : Session) : str :=
  let start := selectionStart s in
  let upto := slice (editorValue s) 0 start in
  match match_enter upto with
  | Some m => arg plain_mk (info_of upto m) 2
  | None => []
  end.

(** the default action of a key that types the text [w]: the selection is
    replaced by [w] and the caret put after it; the input event that
    follows schedules a highlight (app.js 339) *)
Definition typeText (w : str) (s : Session) : Session :=
  let start := selectionStart s in
  let val := editorValue s in
  let v := slice val 0 start ++ w ++ slice_from val (selectionEnd s) in
  scheduleHighlight (with_editor v (start + length w) (start + length w) s).

(** the callback that the keydown handler defers (app.js 329-334) *)
Definition enterTimeout (indent : str) (s : Session) : Session :=
  let cur := selectionStart s in
  let s := set_value (slice (editorValue s) 0 cur ++ indent
                      ++ slice_from (editorValue s) cur) s in
  let s := set_selectionEnd (cur + length indent) s in
  let s := set_selectionStart (cur + length indent) s in
  scheduleHighlight s.

(** the Enter key from keydown to the deferred callback *)
Definition pressEnter (s : Session) : Session :=
  enterTimeout (enterIndent s) (typeText [LF] s).

(** ** Reading texts *)

(** the text after the last line feed *)
Definition last_line (s : str) : str := last (split_on LF s) [].

Fixpoint take_while {A} (p : A -> bool) (l : list A) : list A :=
  match l with
  | [] => []
  | x :: l' => if p x then x :: take_while p l' else []
  end.

(** the inverse of what [escapeHtml] writes: the three entities are read
    back, every other character is kept *)
Fixpoint unescapeHtml (s : str) : str :=
  match s with
  | [] => []
  | "&"%char :: "a"%char :: "m"%char :: "p"%char :: ";"%char :: r => "&"%char :: unescapeHtml r
  | "&"%char :: "l"%char :: "t"%char :: ";"%char :: r => "<"%char :: unescapeHtml r
  | "&"%char :: "g"%char :: "t"%char :: ";"%char :: r => ">"%char :: unescapeHtml r
  | c :: r => c :: unescapeHtml r
  end.

(** a traced text without the characters of inserted span tags *)
Definition without_tags (s : list tchar) : list tchar :=
  filter (fun c => match torigin c with Tag => false | _ => true end) s.

(** matches that follow one another from offset [cur] on *)
Fixpoint chained (cur : nat) (ms : list mres) : Prop :=
  match ms with
  | [] => True
  | m :: ms' => cur <= mstart m /\ mstart m <= mend m /\ chained (mend m) ms'
  end.

(** what the frame callback stores for the text [v]: each tab character
    becomes two spaces *)
Definition expand_tabs (v : str) : str :=
  flat_map (fun c => if aeqb TAB c then lit "  " else [c]) v.

Definition with_content (c : str) (t : Tab) : Tab :=
  {| tab_id := tab_id t; tab_name := tab_name t;
     tab_language := tab_language t; tab_content := c |}.

(** the placeholder of an empty highlight layer (app.js 276) *)
Definition empty_placeholder : str :=
  lit "<span class=" ++ dq :: lit "muted" ++ dq :: lit ">// empty</span>".

(** the selection lies inside the text *)
Definition selection_ok (s : Session) : Prop :=
  selectionStart s <= selectionEnd s /\ selectionEnd s <= length (editorValue s).

(** the tab strip shows the open tabs, the active one marked *)
Definition strip_synced (s : Session) : Prop :=
  tabStrip s = map (fun t => (tab_name t, id_is (activeTabId s) t)) (openTabs s).

(** what holds of every session the handlers can produce: no tab has the
    empty id, and a tab is active exactly when tabs are open *)
Definition Settled (s : Session) : Prop :=
  Inv s /\
  ~ In [] (map tab_id (openTabs s)) /\
  (activeTabId s = None <-> openTabs s = []).

(** group 1 of a match is the match itself *)
Definition group1_whole (m : mres) : Prop :=
  cap_lookup 1 (mcaps m) = Some (mstart m, mend m).

(** * Properties *)

Unset Implicit Arguments.

(** ** Strings and lists *)

Lemma aeqb_eq (a b : ascii) : aeqb a b = true <-> a = b.
Proof. unfold aeqb. apply Ascii.eqb_eq. Qed.

Lemma str_eqb_eq (a b : str) : str_eqb a b = true <-> a = b.
Proof.
  revert b. induction a as [|x a IH]; intros [|y b]; simpl; split; intros H;
    try reflexivity; try discriminate.
  - apply andb_true_iff in H as [H1 H2].
    apply aeqb_eq in H1. apply IH in H2. now subst.
  - injection H as -> ->. apply andb_true_iff. split.
    + now apply aeqb_eq.
    + now apply IH.
Qed.

Lemma str_eqb_refl (a : str) : str_eqb a a = true.
Proof. now apply str_eqb_eq. Qed.

Lemma str_eqb_neq (a b : str) : a <> b -> str_eqb a b = false.
Proof.
  intros H. destruct (str_eqb a b) eqn:E; [|reflexivity].
  apply str_eqb_eq in E. contradiction.
Qed.

Lemma findIndex_first {A} (p : A -> bool) (l1 : list A) (x : A) (l2 : list A) :
  (forall y, In y l1 -> p y = false) -> p x = true ->
  findIndex p (l1 ++ x :: l2) = Some (length l1).
Proof.
  induction l1 as [|y l1 IH]; simpl; intros Hpre Hx.
  - now rewrite Hx.
  - rewrite (Hpre y (or_introl eq_refl)), IH; auto.
Qed.

Lemma findIndex_none {A} (p : A -> bool) (l : list A) :
  (forall y, In y l -> p y = false) -> findIndex p l = None.
Proof.
  induction l as [|y l IH]; simpl; intros H; [reflexivity|].
  rewrite (H y (or_introl eq_refl)), IH; auto.
Qed.

Lemma findIndex_some {A} (p : A -> bool) (l : list A) (i : nat) :
  findIndex p l = Some i ->
  exists l1 x l2, l = l1 ++ x :: l2 /\ length l1 = i /\ p x = true /\
                  forall y, In y l1 -> p y = false.
Proof.
  revert i. induction l as [|y l IH]; simpl; intros i H; [discriminate|].
  destruct (p y) eqn:Ey.
  - injection H as <-. exists [], y, l. repeat split; auto. intros ? [].
  - destruct (findIndex p l) as [j|]; [|discriminate]. injection H as <-.
    destruct (IH j eq_refl) as (l1 & x & l2 & -> & <- & Hx & Hl1).
    exists (y :: l1), x, l2. repeat split; auto.
    intros z [<-|Hz]; auto.
Qed.

Lemma remove_at_middle {A} (l1 : list A) (x : A) (l2 : list A) :
  remove_at (length l1) (l1 ++ x :: l2) = l1 ++ l2.
Proof. induction l1 as [|y l1 IH]; simpl; [reflexivity|now rewrite IH]. Qed.

Lemma find_some_in {A} (p : A -> bool) (l : list A) (x : A) :
  In x l -> p x = true -> exists y, find p l = Some y /\ In y l /\ p y = true.
Proof.
  induction l as [|z l IH]; simpl; intros Hin Hp; [contradiction|].
  destruct (p z) eqn:Ez.
  - exists z. auto.
  - destruct Hin as [->|Hin]; [congruence|].
    destruct (IH Hin Hp) as (y & Hy & Hyin & Hpy). exists y. auto.
Qed.

(** ** The view functions leave the document model alone *)

Lemma set_value_model (v : str) (s : Session) :
  openTabs (set_value v s) = openTabs s /\
  activeTabId (set_value v s) = activeTabId s.
Proof. unfold set_value. destruct (str_eqb v (editorValue s)); auto. Qed.

Lemma set_value_value (v : str) (s : Session) :
  editorValue (set_value v s) = v.
Proof.
  unfold set_value. destruct (str_eqb v (editorValue s)) eqn:E; [|reflexivity].
  apply str_eqb_eq in E. now rewrite E.
Qed.

Lemma setSelectionRange_model (a b : nat) (s : Session) :
  openTabs (setSelectionRange a b s) = openTabs s /\
  activeTabId (setSelectionRange a b s) = activeTabId s.
Proof. unfold setSelectionRange. destruct (_ <=? _)%nat; auto. Qed.

Lemma loadTabContent_model (up : str -> str) (t : Tab) (s : Session) :
  openTabs (loadTabContent up t s) = openTabs s /\
  activeTabId (loadTabContent up t s) = activeTabId s.
Proof. unfold loadTabContent. simpl. apply set_value_model. Qed.

Lemma loadTabContent_view (up : str -> str) (t : Tab) (s : Session) :
  editorValue (loadTabContent up t s) = tab_content t /\
  statusFile (loadTabContent up t s) = tab_name t /\
  statusMode (loadTabContent up t s) = up (tab_language t) /\
  raf (loadTabContent up t s) = true /\
  length (gutter (loadTabContent up t s)) = gutterLines (tab_content t).
Proof.
  unfold loadTabContent. simpl. rewrite set_value_value.
  repeat split; auto. now rewrite length_map, length_seq.
Qed.

Lemma renderTabs_model (usf : Session -> str) (s : Session) :
  openTabs (renderTabs usf s) = openTabs s /\
  activeTabId (renderTabs usf s) = activeTabId s.
Proof. split; reflexivity. Qed.

(** ** closeTab *)

Lemma nth_error_last_rev {A} (l : list A) (x : A) (l2 : list A) :
  nth_error (l ++ x :: l2) (length l) = Some x.
Proof. induction l; simpl; auto. Qed.

Lemma closeTab_found (before : list Tab) (t : Tab) (after : list Tab) (s : Session) :
  openTabs s = before ++ t :: after ->
  (forall u, In u before -> tab_id u <> tab_id t) ->
  findIndex (fun u => str_eqb (tab_id u) (tab_id t)) (openTabs s) = Some (length before)
  /\ remove_at (length before) (openTabs s) = before ++ after.
Proof.
  intros -> Hb. split.
  - apply findIndex_first.
    + intros y Hy. apply str_eqb_neq. auto.
    + apply str_eqb_refl.
  - apply remove_at_middle.
Qed.

(** the id that line 177 picks is the id of the successor *)
Lemma closeTab_pick (before : list Tab) (after : list Tab) :
  match
    match length before with
    | 0 => None
    | S j => nth_error (before ++ after) j
    end
  with
  | Some t => Some (tab_id t)
  | None => match nth_error (before ++ after) 0 with
            | Some t => Some (tab_id t)
            | None => None
            end
  end = option_map tab_id (successor before after).
Proof.
  unfold successor. pattern before. apply rev_ind.
  - simpl. destruct after; reflexivity.
  - intros p front _. rewrite rev_app_distr, length_app, Nat.add_1_r. simpl.
    rewrite <- app_assoc. simpl. now rewrite nth_error_last_rev.
Qed.

Lemma successor_in (before : list Tab) (after : list Tab) (p : Tab) :
  successor before after = Some p -> In p (before ++ after).
Proof.
  unfold successor. destruct (rev before) as [|q r] eqn:E.
  - destruct after as [|q after]; [discriminate|].
    intros [= <-]. apply in_or_app. right. now left.
  - intros [= <-]. apply in_or_app. left. apply in_rev. rewrite E. now left.
Qed.

Lemma find_by_id (l : list Tab) (p : Tab) :
  NoDup (map tab_id l) -> In p l -> find (id_is (Some (tab_id p))) l = Some p.
Proof.
  induction l as [|x l IH]; cbn [map find]; intros Hn Hin; [contradiction|].
  inversion Hn as [|? ? Hx Hl]; subst. unfold id_is at 1, same_id.
  destruct Hin as [->|Hin].
  - now rewrite str_eqb_refl.
  - destruct (str_eqb (tab_id p) (tab_id x)) eqn:E; [|now apply IH].
    apply str_eqb_eq in E. exfalso. apply Hx. rewrite <- E. now apply in_map.
Qed.

(** [closeTab] on the active tab, standing between [before] and [after]. *)
Lemma closeTab_removes_active (up : str -> str) (usf : Session -> str)
    (before : list Tab) (t : Tab) (after : list Tab) (s : Session) :
  openTabs s = before ++ t :: after ->
  (forall u, In u before -> tab_id u <> tab_id t) ->
  activeTabId s = Some (tab_id t) ->
  exists s',
    closeTab up usf (tab_id t) s = Ok s' /\
    openTabs s' = before ++ after /\
    activeTabId s' = option_map tab_id (successor before after) /\
    (forall p, find (id_is (activeTabId s')) (before ++ after) = Some p ->
               truthy (activeTabId s') = true ->
               editorValue s' = tab_content p /\ editorTabId s' = Some (tab_id p)).
Proof.
  intros Htabs Hfirst Hact.
  destruct (closeTab_found before t after s Htabs Hfirst) as [Hidx Hrem].
  unfold closeTab. rewrite Hidx, Hrem. cbn [activeTabId with_tabs].
  rewrite Hact. cbn [same_id]. rewrite str_eqb_refl.
  rewrite closeTab_pick.
  set (a := option_map tab_id (successor before after)).
  destruct (truthy a) eqn:Etr.
  - assert (Hex : exists y, find (id_is a) (before ++ after) = Some y).
    { subst a. destruct (successor before after) as [p|] eqn:Es; [|discriminate].
      destruct (@find_some_in _ (id_is (Some (tab_id p))) (before ++ after) p)
        as (y & Hy & _ & _).
      - now apply successor_in.
      - unfold id_is, same_id. apply str_eqb_refl.
      - exists y. exact Hy. }
    destruct Hex as (y & Hy). rewrite Hy. eexists. split; [reflexivity|].
    assert (Ha : activeTabId (renderTabs usf (loadTabContent up y
                   (with_tabs (before ++ after) a
                      (with_tabs (before ++ after) (Some (tab_id t)) s)))) = a).
    { etransitivity; [apply renderTabs_model|].
      etransitivity; [apply loadTabContent_model|]. reflexivity. }
    split; [|split; [exact Ha|]].
    + etransitivity; [apply renderTabs_model|].
      etransitivity; [apply loadTabContent_model|]. reflexivity.
    + rewrite Ha. intros p Hp _. rewrite Hy in Hp. injection Hp as <-.
      split.
      * cbn. apply set_value_value.
      * reflexivity.
  - eexists. split; [reflexivity|].
    assert (Ha : forall x, activeTabId (set_value [] x) = activeTabId x)
      by (intros; apply set_value_model).
    cbn. rewrite Ha. cbn. split; [apply set_value_model|]. split; [reflexivity|].
    intros p _ Ht. rewrite Etr in Ht. discriminate.
Qed.

(** C5.  When [closeTab] removes the active tab, standing between the tabs
    [before] and the tabs [after], the sequence becomes [before ++ after]
    and the active id becomes the id of the successor: the last tab of
    [before]; when [before] is empty, the first tab of [after]; when both
    are empty, null.  When the ids of the open tabs are distinct and that of
    the successor is not the empty string, the text surface is loaded with
    the successor's content. *)
Theorem closeTab_active_successor (up : str -> str) (usf : Session -> str)
    (before : list Tab) (t : Tab) (after : list Tab) (s : Session) :
  openTabs s = before ++ t :: after ->
  (forall u, In u before -> tab_id u <> tab_id t) ->
  activeTabId s = Some (tab_id t) ->
  exists s',
    closeTab up usf (tab_id t) s = Ok s' /\
    openTabs s' = before ++ after /\
    activeTabId s' =
      match rev before, after with
      | p :: _, _ => Some (tab_id p)
      | [], q :: _ => Some (tab_id q)
      | [], [] => None
      end /\
    (forall p, successor before after = Some p ->
               NoDup (map tab_id (openTabs s)) -> tab_id p <> [] ->
               editorValue s' = tab_content p /\ editorTabId s' = Some (tab_id p)).
Proof.
  intros Htabs Hfirst Hact.
  destruct (closeTab_removes_active up usf before t after s Htabs Hfirst Hact)
    as (s' & Hc & Ht & Ha & Hview).
  exists s'. split; [exact Hc|]. split; [exact Ht|]. split.
  - rewrite Ha. unfold successor.
    destruct (rev before); [destruct after|]; reflexivity.
  - intros p Hp Hn Hid. apply Hview.
    + rewrite Ha, Hp. cbn [option_map]. apply find_by_id.
      * rewrite Htabs, map_app in Hn. cbn [map] in Hn.
        apply NoDup_remove_1 in Hn. now rewrite map_app.
      * now apply successor_in.
    + rewrite Ha, Hp. cbn. destruct (tab_id p); [contradiction|reflexivity].
Qed.

Lemma closeTab_active_successor_witness :
  let s := sample_session ["index.html"; "style.css"; "app.js"] "style.css" in
  let t := sample_tab "style.css" in
  openTabs s = [sample_tab "index.html"] ++ t :: [sample_tab "app.js"] /\
  (forall u, In u [sample_tab "index.html"] -> tab_id u <> tab_id t) /\
  activeTabId s = Some (tab_id t) /\
  exists s',
    closeTab upper_ascii statusFileLabel (tab_id t) s = Ok s' /\
    openTabs s' = [sample_tab "index.html"] ++ [sample_tab "app.js"] /\
    activeTabId s' = Some (tab_id (sample_tab "index.html")) /\
    (forall p, successor [sample_tab "index.html"] [sample_tab "app.js"] = Some p ->
               NoDup (map tab_id (openTabs s)) -> tab_id p <> [] ->
               editorValue s' = tab_content p /\ editorTabId s' = Some (tab_id p)).
Proof.
  assert (H1 : openTabs (sample_session ["index.html"; "style.css"; "app.js"] "style.css")
               = [sample_tab "index.html"] ++ sample_tab "style.css" :: [sample_tab "app.js"])
    by reflexivity.
  assert (H2 : forall u, In u [sample_tab "index.html"] ->
                         tab_id u <> tab_id (sample_tab "style.css")).
  { intros u [<-|[]]. vm_compute. discriminate. }
  assert (H3 : activeTabId (sample_session ["index.html"; "style.css"; "app.js"] "style.css")
               = Some (tab_id (sample_tab "style.css"))) by reflexivity.
  repeat split; try assumption.
  exact (closeTab_active_successor upper_ascii statusFileLabel
           [sample_tab "index.html"] (sample_tab "style.css") [sample_tab "app.js"]
           (sample_session ["index.html"; "style.css"; "app.js"] "style.css") H1 H2 H3).
Defined.

(** C9.  [closeTab] with an id that no open tab carries returns normally
    and leaves the whole session, the open tabs, the active id and the text
    surface included, as it was. *)
Theorem closeTab_unknown_id (up : str -> str) (usf : Session -> str)
    (id : str) (s : Session) :
  (forall t, In t (openTabs s) -> tab_id t <> id) ->
  closeTab up usf id s = Ok s.
Proof.
  intros H. unfold closeTab.
  rewrite findIndex_none; [reflexivity|].
  intros t Ht. apply str_eqb_neq. auto.
Qed.

Lemma closeTab_unknown_id_witness :
  let s := sample_session ["index.html"; "app.js"] "app.js" in
  (forall t, In t (openTabs s) -> tab_id t <> lit "nope") /\
  closeTab upper_ascii statusFileLabel (lit "nope") s = Ok s.
Proof.
  assert (H : forall t, In t (openTabs (sample_session ["index.html"; "app.js"] "app.js")) ->
                        tab_id t <> lit "nope").
  { intros t [<-|[<-|[]]]; vm_compute; discriminate. }
  split; [exact H|].
  exact (closeTab_unknown_id upper_ascii statusFileLabel (lit "nope")
           (sample_session ["index.html"; "app.js"] "app.js") H).
Defined.

(** ** openFileTab *)

Lemma find_by_name (name : str) (ts : list Tab) :
  (exists t, In t ts /\ tab_name t = name) ->
  exists t, find (fun t => str_eqb (tab_name t) name) ts = Some t /\
            In t ts /\ tab_name t = name.
Proof.
  intros (t & Hin & Hname).
  destruct (@find_some_in _ (fun t => str_eqb (tab_name t) name) ts t Hin)
    as (y & Hy & Hyin & Hp).
  - rewrite Hname. apply str_eqb_refl.
  - exists y. repeat split; auto. now apply str_eqb_eq.
Qed.

Lemma openFileTab_existing (up : str -> str) (usf : Session -> str)
    (node : FileNode) (rnd : str) (s : Session) (t : Tab) :
  find (fun t => str_eqb (tab_name t) (node_name node)) (openTabs s) = Some t ->
  openTabs (openFileTab up usf node rnd s) = openTabs s /\
  activeTabId (openFileTab up usf node rnd s) = Some (tab_id t) /\
  editorValue (openFileTab up usf node rnd s) = tab_content t /\
  statusFile (openFileTab up usf node rnd s) = tab_name t.
Proof.
  intros H. unfold openFileTab. rewrite H. split; [|split; [|split]].
  - etransitivity; [apply loadTabContent_model|]. reflexivity.
  - etransitivity; [apply loadTabContent_model|]. reflexivity.
  - apply loadTabContent_view.
  - apply loadTabContent_view.
Qed.

Lemma openFileTab_fresh (up : str -> str) (usf : Session -> str)
    (node : FileNode) (rnd : str) (s : Session) :
  find (fun t => str_eqb (tab_name t) (node_name node)) (openTabs s) = None ->
  exists t,
    tab_name t = node_name node /\
    openTabs (openFileTab up usf node rnd s) = openTabs s ++ [t] /\
    activeTabId (openFileTab up usf node rnd s) = Some (tab_id t).
Proof.
  intros H. unfold openFileTab. rewrite H. unfold createTab.
  eexists. split; [|split].
  2: { etransitivity; [apply loadTabContent_model|]. reflexivity. }
  2: { etransitivity; [apply loadTabContent_model|]. reflexivity. }
  reflexivity.
Qed.

(** C6.  When a tab with the node's name is open, [openFileTab] leaves the
    sequence of open tabs as it is, so their number too, and makes a tab of
    that name the active one, whose content it loads into the text
    surface. *)
Theorem openFileTab_already_open (up : str -> str) (usf : Session -> str)
    (node : FileNode) (rnd : str) (s : Session) :
  (exists t, In t (openTabs s) /\ tab_name t = node_name node) ->
  let s' := openFileTab up usf node rnd s in
  length (openTabs s') = length (openTabs s) /\
  openTabs s' = openTabs s /\
  exists t, In t (openTabs s) /\ tab_name t = node_name node /\
            activeTabId s' = Some (tab_id t) /\
            editorValue s' = tab_content t /\
            statusFile s' = tab_name t.
Proof.
  intros Hex s'.
  destruct (find_by_name _ _ Hex) as (t & Hfind & Hin & Hname).
  destruct (openFileTab_existing up usf node rnd s t Hfind) as (Htabs & Hact & Hval & Hfile).
  subst s'. rewrite Htabs. repeat split.
  exists t. auto.
Qed.

Lemma openFileTab_already_open_witness :
  let s := sample_session ["index.html"; "app.js"] "index.html" in
  (exists t, In t (openTabs s) /\ tab_name t = node_name sample_node) /\
  let s' := openFileTab upper_ascii statusFileLabel sample_node (lit "zzzzzzz") s in
  length (openTabs s') = length (openTabs s) /\
  openTabs s' = openTabs s /\
  exists t, In t (openTabs s) /\ tab_name t = node_name sample_node /\
            activeTabId s' = Some (tab_id t) /\
            editorValue s' = tab_content t /\
            statusFile s' = tab_name t.
Proof.
  assert (H : exists t, In t (openTabs (sample_session ["index.html"; "app.js"] "index.html"))
                        /\ tab_name t = node_name sample_node).
  { exists (sample_tab "app.js"). split; [right; left; reflexivity|reflexivity]. }
  split; [exact H|].
  exact (openFileTab_already_open upper_ascii statusFileLabel sample_node (lit "zzzzzzz")
           (sample_session ["index.html"; "app.js"] "index.html") H).
Defined.

(** ** Closing the last tab *)

(** C8.  Closing the only open tab, which is the active one, returns
    normally with no tab open, a null active id, one entry in the gutter, an
    empty text surface and an empty highlight layer; the mode reads Plain
    Text, and the file label reads No file as long as [updateStatusFile]
    keeps that text for a session without tabs. *)
Theorem closeTab_only_tab (up : str -> str) (usf : Session -> str)
    (t : Tab) (s : Session) :
  openTabs s = [t] ->
  activeTabId s = Some (tab_id t) ->
  (forall x, openTabs x = [] -> activeTabId x = None ->
             statusFile x = lit "No file" -> usf x = lit "No file") ->
  exists s',
    closeTab up usf (tab_id t) s = Ok s' /\
    openTabs s' = [] /\
    activeTabId s' = None /\
    gutter s' = [lit "<div>1</div>"] /\
    editorValue s' = [] /\
    highlightMarkup s' = [] /\
    tabStrip s' = [] /\
    statusFile s' = lit "No file" /\
    statusMode s' = lit "Plain Text" /\
    Inv s'.
Proof.
  intros Htabs Hact Husf. unfold closeTab.
  rewrite Htabs. cbn [findIndex]. rewrite str_eqb_refl.
  cbn [remove_at activeTabId with_tabs]. rewrite Hact. cbn [same_id].
  rewrite str_eqb_refl. cbn [nth_error truthy].
  eexists. split; [reflexivity|].
  assert (Hv : forall x, editorValue (set_value [] x) = []) by (intros; apply set_value_value).
  assert (Hm : forall x, openTabs (set_value [] x) = openTabs x /\
                         activeTabId (set_value [] x) = activeTabId x)
    by (intros; apply set_value_model).
  set (s0 := with_tabs [] None _).
  destruct (Hm s0) as [Hm1 Hm2]. specialize (Hv s0).
  unfold renderTabs, Inv, active_ok, names_distinct. cbn.
  rewrite Hv, Hm1, Hm2. cbn.
  repeat split; try reflexivity; try constructor.
  apply Husf; cbn; auto.
Qed.

Lemma statusFileLabel_no_tabs (x : Session) :
  openTabs x = [] -> activeTabId x = None ->
  statusFile x = lit "No file" -> statusFileLabel x = lit "No file".
Proof. intros H _ _. unfold statusFileLabel. now rewrite H. Qed.

Lemma closeTab_only_tab_witness :
  let s := sample_session ["app.js"] "app.js" in
  let t := sample_tab "app.js" in
  openTabs s = [t] /\
  activeTabId s = Some (tab_id t) /\
  (forall x, openTabs x = [] -> activeTabId x = None ->
             statusFile x = lit "No file" -> statusFileLabel x = lit "No file") /\
  exists s',
    closeTab upper_ascii statusFileLabel (tab_id t) s = Ok s' /\
    openTabs s' = [] /\
    activeTabId s' = None /\
    gutter s' = [lit "<div>1</div>"] /\
    editorValue s' = [] /\
    highlightMarkup s' = [] /\
    tabStrip s' = [] /\
    statusFile s' = lit "No file" /\
    statusMode s' = lit "Plain Text" /\
    Inv s'.
Proof.
  split; [reflexivity|]. split; [reflexivity|].
  split; [exact statusFileLabel_no_tabs|].
  exact (closeTab_only_tab upper_ascii statusFileLabel (sample_tab "app.js")
           (sample_session ["app.js"] "app.js") eq_refl eq_refl statusFileLabel_no_tabs).
Defined.

(** ** The Tab key *)

Lemma length_insert_spaces (val : str) (a b : nat) :
  a <= b -> b <= length val ->
  length (slice val 0 a ++ lit "  " ++ slice_from val b) = a + 2 + (length val - b).
Proof.
  intros Hab Hb. unfold slice, slice_from.
  rewrite length_app, length_firstn, Nat.sub_0_r. cbn [skipn].
  rewrite length_app, length_skipn. cbn. lia.
Qed.

(** C10.  With the selection running from [start] to [end] inside the text,
    the Tab key leaves the text before [start], two spaces, and the text
    from [end] on; the selection is collapsed at [start + 2]. *)
Theorem keydownTab_inserts_two_spaces (s : Session) :
  selectionStart s <= selectionEnd s ->
  selectionEnd s <= length (editorValue s) ->
  let s' := keydownTab s in
  editorValue s' =
    firstn (selectionStart s) (editorValue s) ++ [" "%char; " "%char]
      ++ skipn (selectionEnd s) (editorValue s) /\
  selectionStart s' = selectionStart s + 2 /\
  selectionEnd s' = selectionStart s + 2 /\
  raf s' = true.
Proof.
  intros Hab Hb s'. subst s'. unfold keydownTab.
  set (a := selectionStart s) in *. set (b := selectionEnd s) in *.
  set (val := editorValue s) in *.
  set (v := slice val 0 a ++ lit "  " ++ slice_from val b).
  assert (Hlen : length v = a + 2 + (length val - b))
    by (apply length_insert_spaces; assumption).
  assert (Hv : v = firstn a val ++ [" "%char; " "%char] ++ skipn b val).
  { unfold v, slice, slice_from. now rewrite Nat.sub_0_r. }
  rewrite <- Hv.
  unfold set_value. fold val.
  destruct (str_eqb v val) eqn:E.
  - apply str_eqb_eq in E.
    assert (Hb2 : b = a + 2) by (rewrite E in Hlen; lia).
    unfold set_selectionStart, set_selectionEnd, setSelectionRange.
    fold a b val. cbn [editorValue selectionStart selectionEnd with_editor].
    replace (Nat.min a (length val)) with a by lia.
    replace (Nat.min (a + 2) (length val)) with (a + 2) by lia.
    destruct (a + 2 <=? a)%nat eqn:E1; [apply Nat.leb_le in E1; lia|].
    cbn [editorValue selectionStart selectionEnd with_editor].
    fold val.
    replace (Nat.min (Nat.max (a + 2) (a + 2)) (length val)) with (a + 2) by lia.
    replace (Nat.min (a + 2) (length val)) with (a + 2) by lia.
    rewrite Nat.leb_refl. cbn. fold val. auto.
  - unfold set_selectionStart, set_selectionEnd, setSelectionRange.
    cbn [editorValue selectionStart selectionEnd with_editor].
    replace (Nat.min (length v) (length v)) with (length v) by lia.
    replace (Nat.min (a + 2) (length v)) with (a + 2) by lia.
    destruct (a + 2 <=? length v)%nat eqn:E1; [|apply Nat.leb_gt in E1; lia].
    cbn [editorValue selectionStart selectionEnd with_editor].
    replace (Nat.min (Nat.max (a + 2) (a + 2)) (length v)) with (a + 2) by lia.
    replace (Nat.min (a + 2) (length v)) with (a + 2) by lia.
    rewrite Nat.leb_refl. cbn. auto.
Qed.

Lemma keydownTab_inserts_two_spaces_witness :
  let s := with_editor (lit "if(x){return}") 6 12 initial in
  selectionStart s <= selectionEnd s /\
  selectionEnd s <= length (editorValue s) /\
  let s' := keydownTab s in
  editorValue s' =
    firstn (selectionStart s) (editorValue s) ++ [" "%char; " "%char]
      ++ skipn (selectionEnd s) (editorValue s) /\
  selectionStart s' = selectionStart s + 2 /\
  selectionEnd s' = selectionStart s + 2 /\
  raf s' = true.
Proof.
  assert (H1 : selectionStart (with_editor (lit "if(x){return}") 6 12 initial)
               <= selectionEnd (with_editor (lit "if(x){return}") 6 12 initial))
    by (simpl; lia).
  assert (H2 : selectionEnd (with_editor (lit "if(x){return}") 6 12 initial)
               <= length (editorValue (with_editor (lit "if(x){return}") 6 12 initial)))
    by (simpl; lia).
  split; [exact H1|]. split; [exact H2|].
  exact (keydownTab_inserts_two_spaces (with_editor (lit "if(x){return}") 6 12 initial) H1 H2).
Defined.

(** ** Gutter and caret *)

(** C3 as stated fails: at offset 3 of the text a, b, c on three lines the
    caret is in column 2 of line 2, not in column 1. *)
Lemma caret_abc_offset3_not_column1 :
  ~ (gutterLines text_abc = 3 /\
     caretLine text_abc 3 = 2 /\ caretCol text_abc 3 = 1%Z).
Proof. intros (_ & _ & H). vm_compute in H. discriminate. Qed.

(** C3, amended.  For the text a, b, c on three lines the gutter has three
    entries; the caret at offset 3 is reported as line 2, column 2, and the
    caret at offset 2, just after the first line feed, as line 2,
    column 1. *)
Theorem gutter_and_caret_abc :
  let s3 := with_editor text_abc 3 3 initial in
  let s2 := with_editor text_abc 2 2 initial in
  length (gutter (updateGutter s3)) = 3 /\
  gutterLines text_abc = 3 /\
  (caretLine text_abc 3 = 2 /\ caretCol text_abc 3 = 2%Z) /\
  statusPos (updateCaretStatus s3) = lit "Ln 2, Col 2" /\
  (caretLine text_abc 2 = 2 /\ caretCol text_abc 2 = 1%Z) /\
  statusPos (updateCaretStatus s2) = lit "Ln 2, Col 1".
Proof. vm_compute. repeat split; reflexivity. Qed.

(** ** The invariant *)

Lemma store_content_names (a : option str) (c : str) (ts : list Tab) :
  map tab_name (store_content a c ts) = map tab_name ts /\
  map tab_id (store_content a c ts) = map tab_id ts.
Proof.
  induction ts as [|t ts [IH1 IH2]]; simpl; [auto|].
  destruct (id_is a t); simpl; [auto|]. now rewrite IH1, IH2.
Qed.

Lemma Inv_same_model (s s' : Session) :
  map tab_name (openTabs s') = map tab_name (openTabs s) ->
  map tab_id (openTabs s') = map tab_id (openTabs s) ->
  activeTabId s' = activeTabId s ->
  Inv s -> Inv s'.
Proof.
  unfold Inv, active_ok, names_distinct. intros -> -> ->. auto.
Qed.

Lemma keydownTab_model (s : Session) :
  openTabs (keydownTab s) = openTabs s /\ activeTabId (keydownTab s) = activeTabId s.
Proof.
  unfold keydownTab, set_selectionStart, set_selectionEnd. cbn [openTabs activeTabId scheduleHighlight with_raf].
  split.
  - etransitivity; [apply setSelectionRange_model|].
    etransitivity; [apply setSelectionRange_model|]. apply set_value_model.
  - etransitivity; [apply setSelectionRange_model|].
    etransitivity; [apply setSelectionRange_model|]. apply set_value_model.
Qed.

Lemma Inv_activate (s s' : Session) (t : Tab) :
  openTabs s' = openTabs s -> activeTabId s' = Some (tab_id t) ->
  In t (openTabs s) -> Inv s -> Inv s'.
Proof.
  unfold Inv, active_ok, names_distinct. intros -> -> Hin [_ Hn].
  split; [|assumption]. now apply in_map.
Qed.

Lemma NoDup_snoc {A} (l : list A) (x : A) :
  NoDup l -> ~ In x l -> NoDup (l ++ [x]).
Proof.
  induction l as [|y l IH]; simpl; intros Hn Hx.
  - constructor; [intros []|constructor].
  - inversion Hn as [|? ? Hy Hl]; subst. constructor.
    + intros Hin. apply in_app_or in Hin as [Hin|[->|[]]]; auto.
    + apply IH; auto.
Qed.

Lemma Inv_openFileTab (up : str -> str) (usf : Session -> str)
    (node : FileNode) (rnd : str) (s : Session) :
  Inv s -> Inv (openFileTab up usf node rnd s).
Proof.
  intros HI.
  destruct (find (fun t => str_eqb (tab_name t) (node_name node)) (openTabs s))
    as [t|] eqn:E.
  - destruct (openFileTab_existing up usf node rnd s t E) as (H1 & H2 & _).
    apply (Inv_activate s _ t H1 H2); [|assumption].
    now apply find_some in E.
  - destruct (openFileTab_fresh up usf node rnd s E) as (t & Hname & H1 & H2).
    destruct HI as [_ Hn]. unfold Inv, active_ok, names_distinct in *.
    rewrite H1, H2, !map_app. cbn [map]. split.
    + apply in_or_app. right. now left.
    + apply NoDup_snoc; [assumption|].
      intros Hin. apply in_map_iff in Hin as (u & Hu & Hin).
      apply (find_none _ _ E) in Hin. cbn in Hin.
      rewrite Hu, Hname, str_eqb_refl in Hin. discriminate.
Qed.

Lemma Inv_closeTab (up : str -> str) (usf : Session -> str) (id : str) (s : Session) :
  Inv s -> exists s', closeTab up usf id s = Ok s' /\ Inv s'.
Proof.
  intros [Ha Hn].
  destruct (findIndex (fun t => str_eqb (tab_id t) id) (openTabs s)) as [idx|] eqn:E.
  2: { exists s. unfold closeTab. rewrite E. split; [reflexivity|split; assumption]. }
  destruct (findIndex_some _ _ _ E) as (l1 & x & l2 & Htabs & Hlen & Hx & Hl1).
  apply str_eqb_eq in Hx.
  assert (Hn' : NoDup (map tab_name (l1 ++ l2))).
  { unfold names_distinct in Hn. rewrite Htabs, map_app in Hn. cbn [map] in Hn.
    rewrite map_app. now apply NoDup_remove_1 in Hn. }
  destruct (same_id (activeTabId s) id) eqn:Es.
  - assert (Hact : activeTabId s = Some (tab_id x)).
    { unfold same_id in Es. destruct (activeTabId s) as [i|]; [|discriminate].
      apply str_eqb_eq in Es. congruence. }
    destruct (closeTab_removes_active up usf l1 x l2 s Htabs) as (s' & Hc & Ht & Hact' & _).
    + intros u Hu Heq. apply Hl1 in Hu. rewrite Heq, Hx, str_eqb_refl in Hu. discriminate.
    + assumption.
    + exists s'. rewrite <- Hx. split; [assumption|].
      unfold Inv, active_ok, names_distinct. rewrite Ht. split; [|assumption].
      rewrite Hact'. destruct (successor l1 l2) as [u|] eqn:Eu; [|exact I].
      cbn [option_map]. apply in_map. now apply successor_in.
  - unfold closeTab. rewrite E, <- Hlen.
    cbn [activeTabId with_tabs]. rewrite Es.
    eexists. split; [reflexivity|].
    unfold Inv, active_ok, names_distinct. cbn.
    rewrite Htabs, remove_at_middle. split; [|assumption].
    unfold active_ok in Ha. destruct (activeTabId s) as [i|]; [|exact I].
    rewrite Htabs in Ha. rewrite map_app in *. cbn [map] in Ha.
    apply in_app_or in Ha. apply in_or_app.
    destruct Ha as [Ha|[Ha|Ha]]; auto.
    cbn in Es. rewrite <- Ha, Hx, str_eqb_refl in Es. discriminate.
Qed.

Lemma Inv_clickTab (up : str -> str) (usf : Session -> str) (i : nat) (s : Session) :
  Inv s -> Inv (clickTab up usf i s).
Proof.
  intros HI. unfold clickTab.
  destruct (nth_error (openTabs s) i) as [t|] eqn:E; [|assumption].
  apply (Inv_activate s _ t); auto.
  - etransitivity; [apply renderTabs_model|].
    etransitivity; [apply loadTabContent_model|]. reflexivity.
  - etransitivity; [apply renderTabs_model|].
    etransitivity; [apply loadTabContent_model|]. reflexivity.
  - eapply nth_error_In; eassumption.
Qed.

Lemma Inv_runHighlight (s : Session) : Inv s -> Inv (runHighlight s).
Proof.
  apply Inv_same_model; unfold runHighlight; cbn; try reflexivity;
    apply store_content_names.
Qed.

(** C7.  Every event of the session, opening a file, closing a tab, clicking
    a tab button, the Tab key, an edit, a caret move, an animation frame, is
    handled without an exception and keeps the invariant: the active id is
    null or the id of an open tab, and no two open tabs have the same
    name. *)
Theorem handle_preserves_Inv (up : str -> str) (usf : Session -> str)
    (e : event) (s : Session) :
  Inv s -> exists s', handle up usf e s = Ok s' /\ Inv s'.
Proof.
  intros HI. destruct e as [node rnd|id|i| |v a b|a b| ]; cbn [handle].
  - eexists. split; [reflexivity|]. now apply Inv_openFileTab.
  - now apply Inv_closeTab.
  - eexists. split; [reflexivity|]. now apply Inv_clickTab.
  - eexists. split; [reflexivity|].
    destruct (keydownTab_model s) as [H1 H2].
    apply (Inv_same_model s); try assumption; now rewrite H1.
  - eexists. split; [reflexivity|].
    destruct (setSelectionRange_model a b (with_editor v 0 0 s)) as [H1 H2].
    apply (Inv_same_model s); try assumption; cbn; now rewrite ?H1, ?H2.
  - eexists. split; [reflexivity|].
    destruct (setSelectionRange_model a b s) as [H1 H2].
    apply (Inv_same_model s); try assumption; cbn; now rewrite ?H1, ?H2.
  - eexists. split; [reflexivity|].
    destruct (raf s); [now apply Inv_runHighlight|assumption].
Qed.

Lemma Inv_initial : Inv initial.
Proof. split; [exact I|constructor]. Qed.

Lemma handle_preserves_Inv_witness :
  Inv initial /\
  exists s', handle upper_ascii statusFileLabel
               (EOpenFile sample_node (lit "k3x9q2a")) initial = Ok s' /\ Inv s'.
Proof.
  split; [exact Inv_initial|].
  exact (handle_preserves_Inv upper_ascii statusFileLabel
           (EOpenFile sample_node (lit "k3x9q2a")) initial Inv_initial).
Defined.

(** ** The highlighters on the scenarios *)

(** C1.  On the text [const x = 5; // hi] the keyword rule, which runs last
    and lists [class], also matches the word [class] inside the span tags
    that the comment, string and number rules wrote, and the string rule
    matches the quoted class name of the comment span.  The keyword [const]
    ends up in an intact keyword span; the number 5 and the comment do
    not end up in intact spans. *)
Theorem highlightJS_const_scenario :
  let out := Plain.highlightJS (lit "const x = 5; // hi") in
  out = quoted
    ("<span class=~token-keyword~>const</span> x = " ++
     "<span <span class=~token-keyword~>class</span>=~token-number~>5</span>; " ++
     "<span <span class=~token-keyword~>class</span>=" ++
     "<span <span class=~token-keyword~>class</span>=~token-string~>~token-comment~</span>>" ++
     "// hi</span>")%string /\
  includes out (wrapped "keyword" "const") = true /\
  includes out (wrapped "number" "5") = false /\
  includes out (wrapped "comment" "// hi") = false.
Proof. vm_compute. repeat split; reflexivity. Qed.

(** C4.  On the CSS text [/* x */] no rule matches: the comment pattern of
    line 226 asks for the letter g after the closing star and slash.  The
    text comes back as it went in, with no comment span, whether or not the
    call is taken as global. *)
Theorem highlightCSS_comment_not_wrapped (global_comment : bool) :
  let out := Plain.highlightCSS_with global_comment (lit "/* x */") in
  out = lit "/* x */" /\
  includes out (span_open plain_mk "comment") = false /\
  Plain.highlightCSS (lit "/* x */") = lit "/* x */".
Proof. destruct global_comment; vm_compute; repeat split; reflexivity. Qed.

Lemma scan_unfold (fuel : nat) (r : regex) (p s : str) :
  scan (S fuel) r p s =
  match exec r p s with
  | None => []
  | Some (m, e) =>
      m :: (if mend m =? mstart m
            then match rest e with
                 | [] => []
                 | c :: tl => scan fuel r (c :: pre e) tl
                 end
            else scan fuel r (pre e) (rest e))
  end.
Proof. reflexivity. Qed.

(** ** The matcher only moves forward, and its fuel never runs out *)

Lemma forward_refl (st : mstate) : forward st st.
Proof. exists []. split; reflexivity. Qed.

Lemma forward_trans (a b c : mstate) : forward a b -> forward b c -> forward a c.
Proof.
  intros (w1 & Hp1 & Hr1) (w2 & Hp2 & Hr2). exists (w1 ++ w2). split.
  - rewrite Hp2, Hp1, rev_app_distr, app_assoc. reflexivity.
  - rewrite Hr1, Hr2, app_assoc. reflexivity.
Qed.

Lemma forward_same (st : mstate) (cs : list (nat * (nat * nat))) :
  forward st (MState (pre st) (rest st) cs).
Proof. exists []. split; reflexivity. Qed.

Lemma forward_char (st : mstate) (c : ascii) (tl : str) (cs : list (nat * (nat * nat))) :
  rest st = c :: tl -> forward st (MState (c :: pre st) tl cs).
Proof. intros H. exists [c]. split; [reflexivity|exact H]. Qed.

Lemma forward_advance (n : nat) (st : mstate) : forward st (advance n st).
Proof.
  revert st. induction n as [|n IH]; intros st; cbn [advance]; [apply forward_refl|].
  destruct (rest st) as [|c tl] eqn:E; [apply forward_refl|].
  eapply forward_trans; [|apply IH]. now apply forward_char.
Qed.

Lemma forward_length (st st' : mstate) :
  forward st st' ->
  length (rest st') <= length (rest st) /\
  (pos st' <> pos st -> length (rest st') < length (rest st)).
Proof.
  intros (w & Hp & Hr). unfold pos. rewrite Hp, Hr, !length_app, length_rev.
  split; [lia|]. intros H. destruct w; cbn in *; [contradiction H; reflexivity|lia].
Qed.

(** A matcher that hands its continuation only states ahead of its own. *)
Definition moves_forward (body : mstate -> cont -> option mstate) : Prop :=
  forall st k e, body st k = Some e -> exists st', forward st st' /\ k st' = Some e.

(** A matcher whose result depends on its continuation only at the states
    ahead of its own. *)
Definition looks_forward (body : mstate -> cont -> option mstate) : Prop :=
  forall st k1 k2,
    (forall st', forward st st' -> k1 st' = k2 st') -> body st k1 = body st k2.

Lemma star_moves_forward (body : mstate -> cont -> option mstate)
    (inner : list nat) (g : bool) :
  moves_forward body ->
  forall fuel, moves_forward (star fuel body inner g).
Proof.
  intros Hb fuel. induction fuel as [|fuel IH]; intros st k e; cbn [star].
  - intros H. exists st. split; [apply forward_refl|exact H].
  - assert (Hagain :
      body (MState (pre st) (rest st) (cap_clear inner (caps st)))
           (fun st' => if pos st' =? pos st then None
                       else star fuel body inner g st' k) = Some e ->
      exists st', forward st st' /\ k st' = Some e).
    { intros H. apply Hb in H as (st1 & Hf1 & H).
      destruct (pos st1 =? pos st); [discriminate|].
      apply IH in H as (st2 & Hf2 & H). exists st2. split; [|exact H].
      eapply forward_trans; [|exact Hf2]. exact Hf1. }
    assert (Hstop : k st = Some e -> exists st', forward st st' /\ k st' = Some e).
    { intros H. exists st. split; [apply forward_refl|exact H]. }
    destruct g.
    + destruct (body _ _) eqn:E; [intros [= <-]; now apply Hagain|exact Hstop].
    + destruct (k st) eqn:E; [intros [= <-]; now apply Hstop|exact Hagain].
Qed.

Lemma rmatch_moves_forward (r : regex) : moves_forward (rmatch r).
Proof.
  induction r as [p| |a IHa b IHb|a IHa b IHb|g a IHa|n a IHa|n|[|] a IHa| |m];
    intros st k e; cbn [rmatch].
  - destruct (rest st) as [|c tl] eqn:E; [discriminate|].
    destruct (p c); [|discriminate]. intros H.
    eexists. split; [|exact H]. now apply forward_char.
  - intros H. exists st. split; [apply forward_refl|exact H].
  - intros H. apply IHa in H as (st1 & Hf1 & H). apply IHb in H as (st2 & Hf2 & H).
    exists st2. split; [|exact H]. eapply forward_trans; eassumption.
  - destruct (rmatch a st k) eqn:E.
    + intros [= <-]. now apply IHa.
    + apply IHb.
  - apply star_moves_forward. exact IHa.
  - intros H. apply IHa in H as (st1 & Hf1 & H).
    eexists. split; [|exact H]. exact Hf1.
  - destruct (cap_lookup n (caps st)) as [[i j]|].
    + destruct (starts_with _ _); [|discriminate]. intros H.
      eexists. split; [|exact H]. apply forward_advance.
    + intros H. exists st. split; [apply forward_refl|exact H].
  - destruct (rmatch a st Some) as [st1|]; [|discriminate]. intros H.
    eexists. split; [|exact H]. apply forward_same.
  - destruct (rmatch a st Some) as [st1|]; [discriminate|]. intros H.
    exists st. split; [apply forward_refl|exact H].
  - destruct (xorb _ _); [|discriminate]. intros H.
    exists st. split; [apply forward_refl|exact H].
  - destruct (rest st) as [|c tl].
    + intros H. exists st. split; [apply forward_refl|exact H].
    + destruct (m && is_line_terminator c); [|discriminate]. intros H.
      exists st. split; [apply forward_refl|exact H].
Qed.

Lemma star_looks_forward (body : mstate -> cont -> option mstate)
    (inner : list nat) (g : bool) :
  looks_forward body ->
  forall fuel, looks_forward (star fuel body inner g).
Proof.
  intros Hb fuel. induction fuel as [|fuel IH]; intros st k1 k2 Hk; cbn [star].
  - apply Hk, forward_refl.
  - rewrite (Hk st (forward_refl st)).
    rewrite (Hb (MState (pre st) (rest st) (cap_clear inner (caps st)))
                (fun st' => if pos st' =? pos st then None
                            else star fuel body inner g st' k1)
                (fun st' => if pos st' =? pos st then None
                            else star fuel body inner g st' k2)); [reflexivity|].
    intros st1 Hf1. destruct (pos st1 =? pos st); [reflexivity|].
    apply IH. intros st2 Hf2. apply Hk.
    eapply forward_trans; [|exact Hf2]. exact Hf1.
Qed.

Lemma rmatch_looks_forward (r : regex) : looks_forward (rmatch r).
Proof.
  induction r as [p| |a IHa b IHb|a IHa b IHb|g a IHa|n a IHa|n|[|] a IHa| |m];
    intros st k1 k2 Hk; cbn [rmatch].
  - destruct (rest st) as [|c tl] eqn:E; [reflexivity|].
    destruct (p c); [|reflexivity]. apply Hk. now apply forward_char.
  - apply Hk, forward_refl.
  - apply IHa. intros st1 Hf1. apply IHb. intros st2 Hf2. apply Hk.
    eapply forward_trans; eassumption.
  - rewrite (IHa st k1 k2 Hk), (IHb st k1 k2 Hk). reflexivity.
  - apply star_looks_forward; assumption.
  - apply IHa. intros st1 Hf1. apply Hk. exact Hf1.
  - destruct (cap_lookup n (caps st)) as [[i j]|].
    + destruct (starts_with _ _); [|reflexivity]. apply Hk, forward_advance.
    + apply Hk, forward_refl.
  - destruct (rmatch a st Some) as [st1|]; [|reflexivity].
    apply Hk, forward_same.
  - destruct (rmatch a st Some) as [st1|]; [reflexivity|]. apply Hk, forward_refl.
  - destruct (xorb _ _); [|reflexivity]. apply Hk, forward_refl.
  - destruct (rest st) as [|c tl]; [apply Hk, forward_refl|].
    destruct (m && is_line_terminator c); [|reflexivity]. apply Hk, forward_refl.
Qed.

(** The fuel of a repetition is never the reason it stops: any two amounts
    above the length of the remaining text give the same result. *)
Lemma star_fuel (body : mstate -> cont -> option mstate) (inner : list nat) (g : bool) :
  looks_forward body ->
  forall n m st k,
    length (rest st) < n -> length (rest st) < m ->
    star n body inner g st k = star m body inner g st k.
Proof.
  intros Hb n. induction n as [|n IH]; intros [|m] st k Hn Hm; try lia.
  cbn [star].
  rewrite (Hb (MState (pre st) (rest st) (cap_clear inner (caps st)))
              (fun st' => if pos st' =? pos st then None
                          else star n body inner g st' k)
              (fun st' => if pos st' =? pos st then None
                          else star m body inner g st' k)); [reflexivity|].
  intros st1 Hf1. destruct (pos st1 =? pos st) eqn:E; [reflexivity|].
  apply Nat.eqb_neq in E.
  destruct (forward_length _ _ Hf1) as [_ Hlt]. specialize (Hlt E). cbn in Hlt.
  apply IH; lia.
Qed.

Lemma rmatch_star_fuel (g : bool) (a : regex) (st : mstate) (k : cont) (n : nat) :
  length (rest st) < n ->
  rmatch (RStar g a) st k = star n (rmatch a) (groups_of a) g st k.
Proof.
  intros Hn. cbn [rmatch]. apply star_fuel; [apply rmatch_looks_forward|lia|exact Hn].
Qed.

(** A match found by [exec] ends ahead of where the search started. *)
Lemma exec_forward (r : regex) (s : str) :
  forall before m e,
    exec r before s = Some (m, e) ->
    forward (MState before s []) e /\
    mend m = pos e /\ length before <= mstart m /\ mstart m <= mend m.
Proof.
  induction s as [|c s IH]; intros before m e; cbn [exec].
  - destruct (rmatch r (MState before [] []) Some) as [e'|] eqn:E; [|discriminate].
    intros [= <- <-]. apply rmatch_moves_forward in E as (st' & Hf & [= ->]).
    cbn [mend mstart]. repeat split; auto.
    destruct Hf as (w & Hp & _). unfold pos. rewrite Hp, length_app. cbn. lia.
  - destruct (rmatch r (MState before (c :: s) []) Some) as [e'|] eqn:E.
    + intros [= <- <-]. apply rmatch_moves_forward in E as (st' & Hf & [= ->]).
      cbn [mend mstart]. repeat split; auto.
      destruct Hf as (w & Hp & _). unfold pos. rewrite Hp, length_app. cbn. lia.
    + intros H. apply IH in H as (Hf & He & Hs & Hm). repeat split; auto.
      * eapply forward_trans; [|exact Hf].
        apply (forward_char (MState before (c :: s) [])). reflexivity.
      * cbn in Hs. lia.
Qed.

(** The fuel of a global scan is never the reason it stops either. *)
Lemma scan_fuel (r : regex) :
  forall n m before s,
    length s < n -> length s < m -> scan n r before s = scan m r before s.
Proof.
  induction n as [|n IH]; intros [|m] before s Hn Hm; try lia.
  rewrite !scan_unfold.
  destruct (exec r before s) as [[mt e]|] eqn:E; [|reflexivity].
  apply exec_forward in E as (Hf & He & Hs & Hm').
  destruct (forward_length _ _ Hf) as [Hle Hlt]. cbn in Hle, Hlt.
  f_equal. destruct (mend mt =? mstart mt) eqn:Em.
  - destruct (rest e) as [|c tl]; [reflexivity|]. cbn in Hle. apply IH; lia.
  - apply Nat.eqb_neq in Em. apply IH.
    + assert (pos e <> length before) by lia. specialize (Hlt H). lia.
    + assert (pos e <> length before) by lia. specialize (Hlt H). lia.
Qed.

Lemma matches_global_fuel (r : regex) (s : str) (n : nat) :
  length s < n -> matches true r s = scan n r [] s.
Proof. intros Hn. unfold matches. apply scan_fuel; lia. Qed.

(** ** The matcher on the examples of the ECMAScript specification

    The notes of the specification's section on pattern semantics give the
    results of a few patterns chosen to show backtracking order, the
    clearing of captures in a repetition, back references and lookahead;
    the matcher gives the same results. *)

(** the pattern ((a)|(ab))((c)|(bc)) on abc *)
Example matcher_alternatives :
  replace_all
    (RSeq (RGroup 1 (RAlt (RGroup 2 (RLit "a")) (RGroup 3 (RStr (lit "ab")))))
          (RGroup 4 (RAlt (RGroup 5 (RLit "c")) (RGroup 6 (RStr (lit "bc"))))))
    (show_match [1; 2; 3; 4; 5; 6]) "abc"
  = lit "[abc|a|a|undefined|bc|undefined|bc]".
Proof. reflexivity. Qed.

(** the pattern (z)((a+)?(b+)?(c)) repeated, on zaacbbbcac: the captures of
    an earlier iteration are cleared *)
Example matcher_clears_captures :
  replace_all
    (RSeq (RGroup 1 (RLit "z"))
          (RStar true (RGroup 2 (RSeqs [ROpt (RGroup 3 (RPlus true (RLit "a")));
                                        ROpt (RGroup 4 (RPlus true (RLit "b")));
                                        RGroup 5 (RLit "c")]))))
    (show_match [1; 2; 3; 4; 5]) "zaacbbbcac"
  = lit "[zaacbbbcac|z|ac|a|undefined|c]".
Proof. reflexivity. Qed.

(** a run of a as group 1, then b, then group 1 once or more, on baaaac *)
Example matcher_backreference :
  replace_all
    (RSeqs [RGroup 1 (RStar true (RLit "a")); RLit "b"; RPlus true (RBackref 1)])
    (show_match [1]) "baaaac"
  = lit "[b|]aaaac".
Proof. reflexivity. Qed.

(** a lookahead capturing a run of a, then any run of a, b and the capture,
    on baaabac: the lookahead is not re-entered *)
Example matcher_lookahead :
  replace_all
    (RSeqs [RLook true (RGroup 1 (RPlus true (RLit "a")));
            RStar true (RLit "a"); RLit "b"; RBackref 1])
    (show_match [1]) "baaabac"
  = lit "baa[aba|a]c".
Proof. reflexivity. Qed.

(** the specification's example of a negative lookahead, on baaabaac *)
Example matcher_negative_lookahead :
  replace_all
    (RSeqs [RGroup 1 (RStar false RDot); RLit "a";
            RLook false (RSeqs [RGroup 2 (RPlus true (RLit "a")); RLit "b";
                                RBackref 2; RLit "c"]);
            RBackref 2; RGroup 3 (RStar true RDot)])
    (show_match [1; 2; 3]) "baaabaac"
  = lit "[baaabaac|ba|undefined|abaac]".
Proof. reflexivity. Qed.

(** a repetition whose body can match the empty text, on b; and the empty
    matches a global replace makes between the characters *)
Example matcher_empty_matches :
  replace_all (RStar true (RGroup 1 (RStar true (RLit "a")))) (show_match [1]) "b"
  = lit "[|undefined]b[|undefined]" /\
  replace_all (RStar false (RLit "a")) (fun _ => lit "-") "aaa" = lit "-a-a-a-" /\
  replace_all (RStar true (RLit "a")) (fun _ => lit "-") "baaac" = lit "-b--c-".
Proof. repeat split; reflexivity. Qed.

(** ** Replacement with a one-character pattern *)

Lemma Forall_firstn {A} (P : A -> Prop) (n : nat) (l : list A) :
  Forall P l -> Forall P (firstn n l).
Proof.
  intros H. revert n. induction H; intros [|n]; simpl; constructor; auto.
Qed.

Lemma Forall_skipn {A} (P : A -> Prop) (n : nat) (l : list A) :
  Forall P l -> Forall P (skipn n l).
Proof.
  intros H. revert n. induction H; intros [|n]; simpl; auto.
Qed.

Lemma Forall_slice {A} (P : A -> Prop) (i j : nat) (l : list A) :
  Forall P l -> Forall P (slice l i j).
Proof. intros H. unfold slice. now apply Forall_firstn, Forall_skipn. Qed.

Lemma exec_char_hit (p : ascii -> bool) (c : ascii) (before s : str) :
  p c = true ->
  exec (RChar p) before (c :: s) =
  Some (MRes (length before) (S (length before)) [], MState (c :: before) s []).
Proof. intros H. simpl. now rewrite H. Qed.

Lemma exec_char_miss (p : ascii -> bool) (c : ascii) (before s : str) :
  p c = false ->
  exec (RChar p) before (c :: s) = exec (RChar p) (c :: before) s.
Proof. intros H. simpl. now rewrite H. Qed.

Lemma scan_char (p : ascii -> bool) (s : str) :
  forall (before : str) (fuel : nat),
    length s < fuel -> scan fuel (RChar p) before s = hits p (length before) s.
Proof.
  induction s as [|c s IH]; intros before [|fuel] Hf; simpl in Hf; try lia.
  - reflexivity.
  - rewrite scan_unfold. cbn [hits]. destruct (p c) eqn:E.
    + rewrite exec_char_hit by assumption. cbn [mend mstart pre rest].
      replace (S (length before) =? length before)%nat with false
        by (symmetry; apply Nat.eqb_neq; lia).
      f_equal. apply (IH (c :: before)). lia.
    + rewrite exec_char_miss by assumption.
      rewrite <- scan_unfold. apply (IH (c :: before)). lia.
Qed.

Lemma hits_head (p : ascii -> bool) (s : str) (i : nat) :
  match hits p i s with
  | [] => True
  | m :: _ => i <= mstart m /\ i < mend m
  end.
Proof.
  revert i. induction s as [|c s IH]; intros i; simpl; [exact I|].
  destruct (p c); simpl; [lia|].
  specialize (IH (S i)). destruct (hits p (S i) s); [exact I|lia].
Qed.

Section ReplaceFacts.

Variable A : Type.
Variable code : A -> ascii.
Variable mk : origin -> ascii -> A.

Lemma assemble_skip (f : minfo A -> list A) (s : list A) (ms : list mres)
    (cur : nat) (a : A) (tl : list A) :
  match ms with
  | [] => True
  | m :: _ => cur < mstart m /\ cur < mend m
  end ->
  assemble f s ms cur (a :: tl) = a :: assemble f s ms (S cur) tl.
Proof.
  destruct ms as [|m ms]; intros H; cbn [assemble]; [reflexivity|].
  destruct H as [H1 H2].
  replace (mstart m - cur) with (S (mstart m - S cur)) by lia.
  replace (mend m - cur) with (S (mend m - S cur)) by lia.
  reflexivity.
Qed.

Lemma assemble_hits (p : ascii -> bool) (w : list A) (s : list A) (tl : list A) :
  forall cur,
    assemble (fun _ => w) s (hits p cur (map code tl)) cur tl =
    flat_map (fun a => if p (code a) then w else [a]) tl.
Proof.
  induction tl as [|a tl IH]; intros cur; [reflexivity|].
  cbn [map hits flat_map]. destruct (p (code a)) eqn:E.
  - cbn [assemble mstart mend]. rewrite Nat.sub_diag.
    replace (S cur - cur) with 1 by lia. cbn [firstn skipn app].
    now rewrite IH.
  - rewrite assemble_skip, IH; [reflexivity|].
    pose proof (hits_head p (map code tl) (S cur)) as H.
    destruct (hits p (S cur) (map code tl)); [exact I|lia].
Qed.

(** A global replace of single characters by a fixed text works character
    by character. *)
Lemma replace_char (p : ascii -> bool) (w : list A) (s : list A) :
  replace code true (RChar p) (fun _ => w) s =
  flat_map (fun a => if p (code a) then w else [a]) s.
Proof.
  unfold replace, matches. rewrite scan_char.
  - apply assemble_hits.
  - rewrite length_map. lia.
Qed.

Hypothesis code_mk : forall o c, code (mk o c) = c.

Lemma flat_map_flat_map {X Y Z} (f : X -> list Y) (g : Y -> list Z) (l : list X) :
  flat_map g (flat_map f l) = flat_map (fun x => flat_map g (f x)) l.
Proof.
  induction l as [|x l IH]; simpl; [reflexivity|].
  now rewrite flat_map_app, IH.
Qed.

Lemma flat_map_put (p : ascii -> bool) (w : list A) (o : origin) (l : str) :
  forallb (fun c => negb (p c)) l = true ->
  flat_map (fun a => if p (code a) then w else [a]) (put mk o l) = put mk o l.
Proof.
  induction l as [|c l IH]; cbn [forallb put map flat_map]; intros H; [reflexivity|].
  apply andb_true_iff in H as [H1 H2]. rewrite code_mk.
  apply negb_true_iff in H1. rewrite H1. cbn [app]. f_equal. now apply IH.
Qed.

(** [escapeHtml] writes an entity for each ampersand and angle bracket and
    keeps every other character. *)
Lemma escapeHtml_chars (s : list A) :
  escapeHtml code mk s = flat_map (escape_char code mk) s.
Proof.
  unfold escapeHtml, RLit. rewrite !replace_char, !flat_map_flat_map.
  apply flat_map_ext. intros a. unfold escape_char. cbv beta.
  rewrite <- flat_map_flat_map.
  destruct (aeqb "&" (code a)) eqn:E1.
  - rewrite !flat_map_put; reflexivity.
  - cbn [flat_map app]. rewrite app_nil_r.
    destruct (aeqb "<" (code a)) eqn:E2.
    + rewrite !flat_map_put; reflexivity.
    + cbn [flat_map app]. rewrite app_nil_r. reflexivity.
Qed.

(** What [replace] returns is made of pieces of its subject and of what
    the replacement gives. *)
Lemma assemble_Forall (P : A -> Prop) (f : minfo A -> list A) (s : list A)
    (ms : list mres) :
  (forall m, Forall P (f (info_of s m))) ->
  forall cur tl, Forall P tl -> Forall P (assemble f s ms cur tl).
Proof.
  intros Hf. induction ms as [|m ms IH]; intros cur tl Htl; cbn [assemble]; [assumption|].
  apply Forall_app. split; [now apply Forall_firstn|].
  apply Forall_app. split; [apply Hf|].
  apply IH. now apply Forall_skipn.
Qed.

Lemma replace_Forall (P : A -> Prop) (g : bool) (r : regex)
    (f : minfo A -> list A) (s : list A) :
  Forall P s -> (forall m, Forall P (f (info_of s m))) ->
  Forall P (replace code g r f s).
Proof. intros Hs Hf. unfold replace. now apply assemble_Forall. Qed.

Lemma whole_Forall (P : A -> Prop) (s : list A) (m : mres) :
  Forall P s -> Forall P (whole (info_of s m)).
Proof. intros H. cbn. now apply Forall_slice. Qed.

Lemma dollar_Forall (P : A -> Prop) (s : list A) (m : mres) (n : nat) :
  Forall P s -> Forall P (dollar (info_of s m) n).
Proof.
  intros H. unfold dollar. cbn.
  destruct (cap_lookup n (mcaps m)) as [[i j]|]; [|constructor].
  now apply Forall_slice.
Qed.

Lemma arg_Forall (P : A -> Prop) (s : list A) (m : mres) (n : nat) :
  Forall P s -> Forall P (put mk Glue (lit "undefined")) ->
  Forall P (arg mk (info_of s m) n).
Proof.
  intros H Hu. unfold arg. cbn.
  destruct (cap_lookup n (mcaps m)) as [[i j]|]; [|assumption].
  now apply Forall_slice.
Qed.

End ReplaceFacts.

(** ** No angle bracket of the input survives *)

Lemma tcode_tmk (o : origin) (c : ascii) : tcode (tmk o c) = c.
Proof. reflexivity. Qed.

Lemma InOrder_app (a b : list tchar) : InOrder a -> InOrder b -> InOrder (a ++ b).
Proof. intros Ha Hb. apply Forall_app. now split. Qed.

Lemma InOrder_tag (l : str) : InOrder (put tmk Tag l).
Proof. induction l; constructor; auto. Qed.

Lemma InOrder_written (o : origin) (l : str) :
  o <> Source -> forallb (fun c => negb (is_angle c)) l = true -> InOrder (put tmk o l).
Proof.
  intros Ho. induction l as [|c l IH]; cbn [forallb]; intros H; [constructor|].
  apply andb_true_iff in H as [H1 H2]. constructor; [|now apply IH].
  unfold in_order. cbn [torigin tcode tmk fst snd].
  destruct o; auto; contradiction.
Qed.

Lemma InOrder_span (kind : string) (body : list tchar) :
  InOrder body -> InOrder (span tmk kind body).
Proof.
  intros H. unfold span, span_open, span_close.
  repeat apply InOrder_app; auto using InOrder_tag.
Qed.

Lemma digits_no_angle (d : Decimal.uint) :
  forallb (fun c => negb (is_angle c)) (lit (NilEmpty.string_of_uint d)) = true.
Proof. induction d; cbn; auto. Qed.

Lemma dec_no_angle (n : nat) : forallb (fun c => negb (is_angle c)) (dec n) = true.
Proof.
  unfold dec, NilZero.string_of_uint.
  destruct (Nat.to_uint n) eqn:E; try (rewrite <- E; apply digits_no_angle).
  reflexivity.
Qed.

Lemma InOrder_escape_char (a : tchar) : InOrder (escape_char tcode tmk a).
Proof.
  unfold escape_char.
  destruct (aeqb "&" (tcode a)) eqn:E1;
    [apply InOrder_written; [discriminate|reflexivity]|].
  destruct (aeqb "<" (tcode a)) eqn:E2;
    [apply InOrder_written; [discriminate|reflexivity]|].
  destruct (aeqb ">" (tcode a)) eqn:E3;
    [apply InOrder_written; [discriminate|reflexivity]|].
  constructor; [|constructor].
  assert (Hs : is_special (tcode a) = false).
  { unfold is_special, is_angle, aeqb in *.
    rewrite (Ascii.eqb_sym (tcode a) "&"), (Ascii.eqb_sym (tcode a) "<"),
            (Ascii.eqb_sym (tcode a) ">"), E1, E2, E3. reflexivity. }
  unfold in_order. unfold is_special in Hs. apply orb_false_iff in Hs as [_ Hs].
  destruct (torigin a); auto.
  - unfold is_special. unfold aeqb in *. rewrite Ascii.eqb_sym, E1, Hs. reflexivity.
  - now rewrite Hs.
  - now rewrite Hs.
Qed.

(** Whatever text [escapeHtml] is given, its result is in order. *)
Lemma InOrder_escapeHtml (s : list tchar) : InOrder (Traced.escapeHtml s).
Proof.
  unfold Traced.escapeHtml. rewrite (escapeHtml_chars tchar tcode tmk tcode_tmk).
  apply Forall_flat_map. apply Forall_forall. intros a _. apply InOrder_escape_char.
Qed.

Lemma InOrder_replace (g : bool) (r : regex) (f : minfo tchar -> list tchar)
    (s : list tchar) :
  InOrder s -> (InOrder s -> forall m, InOrder (f (info_of s m))) ->
  InOrder (replace tcode g r f s).
Proof. intros Hs Hf. apply replace_Forall; [exact Hs | exact (Hf Hs)]. Qed.

Ltac in_order :=
  repeat first
    [ assumption
    | apply InOrder_span
    | apply InOrder_escapeHtml
    | apply InOrder_app
    | apply dollar_Forall
    | apply whole_Forall
    | apply arg_Forall
    | apply InOrder_written; [discriminate | first [reflexivity | apply dec_no_angle]] ].

Lemma InOrder_highlightJS (s : list tchar) : InOrder (Traced.highlightJS s).
Proof.
  unfold Traced.highlightJS, highlightJS.
  repeat first [ apply InOrder_escapeHtml
               | apply InOrder_replace; [|intros Hs m; in_order] ].
Qed.

Lemma InOrder_highlightCSS (g : bool) (s : list tchar) :
  InOrder (Traced.highlightCSS_with g s).
Proof.
  unfold Traced.highlightCSS_with, highlightCSS_with.
  repeat first [ apply InOrder_escapeHtml
               | apply InOrder_replace; [|intros Hs m; in_order] ].
Qed.

Lemma InOrder_html_tag_callback (s : list tchar) (m : mres) :
  InOrder s -> InOrder (html_tag_callback tcode tmk (info_of s m)).
Proof.
  intros Hs. unfold html_tag_callback. in_order.
  apply InOrder_replace; [in_order|intros Ha a; in_order].
Qed.

Lemma InOrder_highlightHTML (s : list tchar) : InOrder (Traced.highlightHTML s).
Proof.
  unfold Traced.highlightHTML, highlightHTML.
  repeat first [ apply InOrder_escapeHtml
               | apply InOrder_replace;
                 [|intros Hs m; first [now apply InOrder_html_tag_callback | in_order]] ].
Qed.

Lemma InOrder_highlightByMode (s : list tchar) (mode : str) :
  InOrder (Traced.highlightByMode s mode).
Proof.
  unfold Traced.highlightByMode, highlightByMode.
  destruct (str_eqb mode (lit "js")); [apply InOrder_highlightJS|].
  destruct (str_eqb mode (lit "css")); [apply InOrder_highlightCSS|].
  destruct (str_eqb mode (lit "html")); [apply InOrder_highlightHTML|].
  apply InOrder_escapeHtml.
Qed.

(** ** The traced run and the plain run give the same characters *)

Lemma erase_app (a b : list tchar) :
  Traced.erase (a ++ b) = Traced.erase a ++ Traced.erase b.
Proof. apply map_app. Qed.

Lemma erase_put (o : origin) (l : str) : Traced.erase (put tmk o l) = put plain_mk o l.
Proof.
  unfold Traced.erase, put. rewrite map_map. reflexivity.
Qed.

Lemma erase_source (l : str) : Traced.erase (Traced.source l) = l.
Proof.
  unfold Traced.erase, Traced.source. rewrite map_map. apply map_id.
Qed.

Lemma erase_slice (s : list tchar) (i j : nat) :
  Traced.erase (slice s i j) = slice (Traced.erase s) i j.
Proof. unfold Traced.erase, slice. now rewrite skipn_map, firstn_map. Qed.

Lemma erase_span (kind : string) (body : list tchar) :
  Traced.erase (span tmk kind body) = span plain_mk kind (Traced.erase body).
Proof.
  unfold span, span_open, span_close. now rewrite !erase_app, !erase_put.
Qed.

Lemma erase_whole (s : list tchar) (m : mres) :
  Traced.erase (whole (info_of s m)) = whole (info_of (Traced.erase s) m).
Proof. apply erase_slice. Qed.

Lemma erase_dollar (s : list tchar) (m : mres) (n : nat) :
  Traced.erase (dollar (info_of s m) n) = dollar (info_of (Traced.erase s) m) n.
Proof.
  unfold dollar. cbn. destruct (cap_lookup n (mcaps m)) as [[i j]|]; [|reflexivity].
  apply erase_slice.
Qed.

Lemma erase_arg (s : list tchar) (m : mres) (n : nat) :
  Traced.erase (arg tmk (info_of s m) n) = arg plain_mk (info_of (Traced.erase s) m) n.
Proof.
  unfold arg. cbn. destruct (cap_lookup n (mcaps m)) as [[i j]|].
  - apply erase_slice.
  - reflexivity.
Qed.

Lemma erase_index (s : list tchar) (m : mres) :
  index (info_of s m) = index (info_of (Traced.erase s) m).
Proof. reflexivity. Qed.

Lemma erase_assemble (f : minfo tchar -> list tchar) (f' : minfo ascii -> str)
    (s : list tchar) (ms : list mres) :
  (forall m, Traced.erase (f (info_of s m)) = f' (info_of (Traced.erase s) m)) ->
  forall cur tl,
    Traced.erase (assemble f s ms cur tl) =
    assemble f' (Traced.erase s) ms cur (Traced.erase tl).
Proof.
  intros Hf. induction ms as [|m ms IH]; intros cur tl; cbn [assemble]; [reflexivity|].
  rewrite !erase_app, Hf, IH. unfold Traced.erase.
  now rewrite firstn_map, skipn_map.
Qed.

Lemma erase_replace (g : bool) (r : regex) (f : minfo tchar -> list tchar)
    (f' : minfo ascii -> str) (s : list tchar) (s' : str) :
  Traced.erase s = s' ->
  (forall m, Traced.erase (f (info_of s m)) = f' (info_of (Traced.erase s) m)) ->
  Traced.erase (replace tcode g r f s) = replace plain_code g r f' s'.
Proof.
  intros <- Hf. unfold replace. rewrite (erase_assemble f f' s _ Hf).
  unfold plain_code. rewrite map_id. reflexivity.
Qed.

Lemma erase_escapeHtml (s : list tchar) :
  Traced.erase (Traced.escapeHtml s) = Plain.escapeHtml (Traced.erase s).
Proof.
  unfold Traced.escapeHtml, Plain.escapeHtml, escapeHtml.
  repeat (apply erase_replace; [|intros m; apply erase_put]).
  reflexivity.
Qed.

Lemma erase_escapeHtml' (s : list tchar) :
  Traced.erase (escapeHtml tcode tmk s) = escapeHtml plain_code plain_mk (Traced.erase s).
Proof. apply erase_escapeHtml. Qed.

Ltac erase_pieces :=
  repeat first
    [ reflexivity
    | rewrite erase_app
    | rewrite erase_span
    | rewrite erase_escapeHtml'
    | rewrite erase_dollar
    | rewrite erase_whole
    | rewrite erase_arg
    | rewrite erase_put ].

Lemma erase_highlightJS (s : list tchar) :
  Traced.erase (Traced.highlightJS s) = Plain.highlightJS (Traced.erase s).
Proof.
  unfold Traced.highlightJS, Plain.highlightJS, highlightJS.
  do 4 (apply erase_replace; [|intros m; erase_pieces]).
  apply erase_escapeHtml.
Qed.

Lemma erase_highlightCSS (g : bool) (s : list tchar) :
  Traced.erase (Traced.highlightCSS_with g s) = Plain.highlightCSS_with g (Traced.erase s).
Proof.
  unfold Traced.highlightCSS_with, Plain.highlightCSS_with, highlightCSS_with.
  do 5 (apply erase_replace; [|intros m; erase_pieces]).
  apply erase_escapeHtml.
Qed.

Lemma erase_html_tag_callback (s : list tchar) (m : mres) :
  Traced.erase (html_tag_callback tcode tmk (info_of s m)) =
  html_tag_callback plain_code plain_mk (info_of (Traced.erase s) m).
Proof.
  unfold html_tag_callback. rewrite !erase_app, erase_span, !erase_arg, erase_put.
  do 3 f_equal.
  apply erase_replace; [apply erase_arg|intros a; erase_pieces].
Qed.

Lemma erase_highlightHTML (s : list tchar) :
  Traced.erase (Traced.highlightHTML s) = Plain.highlightHTML (Traced.erase s).
Proof.
  unfold Traced.highlightHTML, Plain.highlightHTML, highlightHTML.
  apply erase_replace; [|intros m; erase_pieces].
  apply erase_replace; [|intros m; apply erase_html_tag_callback].
  apply erase_replace; [|intros m; erase_pieces].
  apply erase_escapeHtml.
Qed.

Lemma erase_highlightByMode (s : list tchar) (mode : str) :
  Traced.erase (Traced.highlightByMode s mode) =
  Plain.highlightByMode (Traced.erase s) mode.
Proof.
  unfold Traced.highlightByMode, Plain.highlightByMode, highlightByMode.
  destruct (str_eqb mode (lit "js")); [apply erase_highlightJS|].
  destruct (str_eqb mode (lit "css")); [apply (erase_highlightCSS false)|].
  destruct (str_eqb mode (lit "html")); [apply erase_highlightHTML|].
  apply erase_escapeHtml.
Qed.

Lemma in_order_angle (c : tchar) :
  in_order c = true -> tcode c = "<"%char \/ tcode c = ">"%char -> torigin c = Tag.
Proof.
  unfold in_order, is_special, is_angle. intros H Hc.
  assert (Ha : aeqb (tcode c) "<" || aeqb (tcode c) ">" = true).
  { apply orb_true_iff. destruct Hc as [-> | ->]; [left|right]; now apply aeqb_eq. }
  rewrite Ha in H. destruct (torigin c); try reflexivity.
  - rewrite orb_true_r in H. discriminate.
  - discriminate.
  - discriminate.
Qed.

Lemma in_order_source (c : tchar) :
  in_order c = true -> torigin c = Source ->
  tcode c <> "&"%char /\ tcode c <> "<"%char /\ tcode c <> ">"%char.
Proof.
  unfold in_order, is_special, is_angle. intros H Ho. rewrite Ho in H.
  apply negb_true_iff, orb_false_iff in H as [H1 H2].
  apply orb_false_iff in H2 as [H2 H3].
  repeat split; intros E; rewrite E in *; discriminate.
Qed.

Lemma escapeHtml_no_angle (text : str) :
  Forall (fun c => c <> "<"%char /\ c <> ">"%char) (Plain.escapeHtml text).
Proof.
  unfold Plain.escapeHtml.
  rewrite (escapeHtml_chars ascii plain_code plain_mk (fun _ _ => eq_refl)).
  apply Forall_flat_map. apply Forall_forall. intros a _.
  unfold escape_char, plain_code.
  destruct (aeqb "&" a) eqn:E1;
    [repeat constructor; discriminate|].
  destruct (aeqb "<" a) eqn:E2;
    [repeat constructor; discriminate|].
  destruct (aeqb ">" a) eqn:E3;
    [repeat constructor; discriminate|].
  constructor; [|constructor].
  split; intros ->; discriminate.
Qed.

(** C2.  Run on a text whose characters are marked as the input's, a
    highlighter, whatever the language tag, returns the characters the
    program returns, and among them every angle bracket belongs to a span
    tag that the highlighter wrote, while no character copied from the
    input is an ampersand or an angle bracket; the escaping step, with which
    every highlighter starts, leaves no angle bracket at all. *)
Theorem highlight_escapes_input (text mode : str) :
  let out := Traced.highlightByMode (Traced.source text) mode in
  Traced.erase out = Plain.highlightByMode text mode /\
  Forall (fun c => tcode c = "<"%char \/ tcode c = ">"%char -> torigin c = Tag) out /\
  Forall (fun c => torigin c = Source ->
                   tcode c <> "&"%char /\ tcode c <> "<"%char /\ tcode c <> ">"%char) out /\
  Forall (fun c => c <> "<"%char /\ c <> ">"%char) (Plain.escapeHtml text).
Proof.
  intros out. subst out.
  pose proof (InOrder_highlightByMode (Traced.source text) mode) as H.
  split; [|split; [|split]].
  - rewrite erase_highlightByMode. now rewrite erase_source.
  - eapply Forall_impl; [|exact H]. intros c Hc. now apply in_order_angle.
  - eapply Forall_impl; [|exact H]. intros c Hc. now apply in_order_source.
  - apply escapeHtml_no_angle.
Qed.

(** * More of app.js *)

(** ** escapeHtml *)

Lemma plain_escapeHtml_chars (s : str) :
  Plain.escapeHtml s = flat_map (escape_char plain_code plain_mk) s.
Proof.
  unfold Plain.escapeHtml.
  apply (escapeHtml_chars ascii plain_code plain_mk (fun _ _ => eq_refl)).
Qed.

(** X1.  [escapeHtml] works character by character: an ampersand becomes
    [&amp;], the angle brackets become [&lt;] and [&gt;], every other
    character is kept; a text from which these three characters have been
    taken out comes back unchanged. *)
Theorem escapeHtml_characterwise (s : str) :
  Plain.escapeHtml s =
    flat_map (fun c => if aeqb "&" c then lit "&amp;"
                       else if aeqb "<" c then lit "&lt;"
                       else if aeqb ">" c then lit "&gt;"
                       else [c]) s /\
  Plain.escapeHtml (filter (fun c => negb (is_special c)) s) =
    filter (fun c => negb (is_special c)) s.
Proof.
  rewrite !plain_escapeHtml_chars. split; [reflexivity|].
  induction s as [|c s IH]; cbn [filter flat_map]; [reflexivity|].
  destruct (negb (is_special c)) eqn:Hc; [|exact IH].
  cbn [flat_map]. rewrite IH.
  unfold is_special, is_angle in Hc.
  apply negb_true_iff, orb_false_iff in Hc as [H1 H2].
  apply orb_false_iff in H2 as [H2 H3].
  unfold escape_char, plain_code, aeqb in *.
  rewrite (Ascii.eqb_sym "&" c), (Ascii.eqb_sym "<" c), (Ascii.eqb_sym ">" c), H1, H2, H3.
  reflexivity.
Qed.

Lemma unescape_kept (c : ascii) (r : str) :
  aeqb "&" c = false -> unescapeHtml (c :: r) = c :: unescapeHtml r.
Proof.
  destruct c as [[|] [|] [|] [|] [|] [|] [|] [|]]; intros H;
    try reflexivity; discriminate H.
Qed.

Lemma unescape_amp (r : str) :
  unescapeHtml (put plain_mk Entity (lit "&amp;") ++ r) = "&"%char :: unescapeHtml r.
Proof. reflexivity. Qed.

Lemma unescape_lt (r : str) :
  unescapeHtml (put plain_mk Entity (lit "&lt;") ++ r) = "<"%char :: unescapeHtml r.
Proof. reflexivity. Qed.

Lemma unescape_gt (r : str) :
  unescapeHtml (put plain_mk Entity (lit "&gt;") ++ r) = ">"%char :: unescapeHtml r.
Proof. reflexivity. Qed.

(** X2.  Escaping loses nothing: reading the three entities back gives the
    text that was escaped. *)
Theorem escapeHtml_round_trip (s : str) :
  unescapeHtml (Plain.escapeHtml s) = s.
Proof.
  rewrite plain_escapeHtml_chars.
  induction s as [|c u IH]; [reflexivity|]. cbn [flat_map].
  unfold escape_char at 1. change (plain_code c) with c.
  destruct (aeqb "&" c) eqn:E1.
  { apply aeqb_eq in E1. subst c. rewrite unescape_amp. now rewrite IH. }
  destruct (aeqb "<" c) eqn:E2.
  { apply aeqb_eq in E2. subst c. rewrite unescape_lt. now rewrite IH. }
  destruct (aeqb ">" c) eqn:E3.
  { apply aeqb_eq in E3. subst c. rewrite unescape_gt. now rewrite IH. }
  cbn [app]. rewrite unescape_kept by assumption. now rewrite IH.
Qed.

(** ** highlightByMode without a highlighter *)

(** X3.  For a language tag other than js, css and html, such as plaintext
    or md, [highlightByMode] only escapes: its result is that of
    [escapeHtml] and holds no angle bracket, hence no span. *)
Theorem highlightByMode_fallback (text mode : str) :
  mode <> lit "js" -> mode <> lit "css" -> mode <> lit "html" ->
  Plain.highlightByMode text mode = Plain.escapeHtml text /\
  Forall (fun c => c <> "<"%char /\ c <> ">"%char) (Plain.highlightByMode text mode).
Proof.
  intros H1 H2 H3.
  assert (E : Plain.highlightByMode text mode = Plain.escapeHtml text).
  { unfold Plain.highlightByMode, highlightByMode.
    rewrite !str_eqb_neq by assumption. reflexivity. }
  split; [exact E|]. rewrite E. apply escapeHtml_no_angle.
Qed.

Lemma highlightByMode_fallback_witness :
  lit "md" <> lit "js" /\ lit "md" <> lit "css" /\ lit "md" <> lit "html" /\
  Plain.highlightByMode (lit "# a <b>") (lit "md") = Plain.escapeHtml (lit "# a <b>") /\
  Forall (fun c => c <> "<"%char /\ c <> ">"%char)
         (Plain.highlightByMode (lit "# a <b>") (lit "md")).
Proof.
  assert (H1 : lit "md" <> lit "js") by (vm_compute; discriminate).
  assert (H2 : lit "md" <> lit "css") by (vm_compute; discriminate).
  assert (H3 : lit "md" <> lit "html") by (vm_compute; discriminate).
  split; [exact H1|]. split; [exact H2|]. split; [exact H3|].
  exact (highlightByMode_fallback (lit "# a <b>") (lit "md") H1 H2 H3).
Defined.

(** ** detectLanguage *)

Ltac detect_suffix base :=
  unfold detectLanguage;
  match goal with
  | |- context [match ?n with [] => _ | _ :: _ => _ end] =>
      let E := fresh "E" in
      destruct n eqn:E; [destruct base; discriminate E|]; rewrite <- E
  end;
  unfold ends_with; rewrite !rev_app_distr; reflexivity.

(** X4.  [detectLanguage] reads the language off the end of the name,
    whatever comes before: .html and .htm give html, .css gives css, .js
    gives js, .md gives md; the empty name gives plaintext. *)
Theorem detectLanguage_suffixes (base : str) :
  detectLanguage (base ++ lit ".html") = lit "html" /\
  detectLanguage (base ++ lit ".htm") = lit "html" /\
  detectLanguage (base ++ lit ".css") = lit "css" /\
  detectLanguage (base ++ lit ".js") = lit "js" /\
  detectLanguage (base ++ lit ".md") = lit "md" /\
  detectLanguage [] = lit "plaintext".
Proof.
  split; [detect_suffix base|]. split; [detect_suffix base|].
  split; [detect_suffix base|]. split; [detect_suffix base|].
  split; [detect_suffix base|]. reflexivity.
Qed.

(** ** Lines *)

Lemma split_on_cons (sep : ascii) (s : str) :
  exists l ls, split_on sep s = l :: ls.
Proof.
  induction s as [|c s (l & ls & IH)]; cbn [split_on]; [eauto|].
  destruct (aeqb c sep); [eauto|]. rewrite IH. eauto.
Qed.

Lemma split_on_length (sep : ascii) (s : str) :
  length (split_on sep s) = S (length (filter (fun c => aeqb c sep) s)).
Proof.
  induction s as [|c s IH]; cbn [split_on filter]; [reflexivity|].
  destruct (aeqb c sep); cbn [length]; [now rewrite IH|].
  destruct (split_on_cons sep s) as (l & ls & E). rewrite E in *. exact IH.
Qed.

Lemma split_on_none (sep : ascii) (t : str) :
  ~ In sep t -> split_on sep t = [t].
Proof.
  induction t as [|c t IH]; cbn [split_on]; intros H; [reflexivity|].
  destruct (aeqb c sep) eqn:E.
  - apply aeqb_eq in E. subst c. exfalso. apply H. now left.
  - rewrite IH; [reflexivity|]. intros Hin. apply H. now right.
Qed.

Lemma split_on_last (sep : ascii) (front t : str) :
  ~ In sep t -> split_on sep (front ++ sep :: t) = split_on sep front ++ [t].
Proof.
  intros Ht. induction front as [|c front IH]; cbn [app split_on].
  - unfold aeqb. rewrite Ascii.eqb_refl. now rewrite split_on_none.
  - rewrite IH. destruct (aeqb c sep); [reflexivity|].
    destruct (split_on_cons sep front) as (l & ls & E). rewrite E. reflexivity.
Qed.

(** a text has no line feed, or a last one *)
Lemma last_feed (s : str) :
  ~ In LF s \/ exists front t, s = front ++ LF :: t /\ ~ In LF t.
Proof.
  induction s as [|c s [IH|(front & t & -> & Ht)]].
  - left. intros [].
  - destruct (aeqb c LF) eqn:E.
    + apply aeqb_eq in E. subst c. right. exists [], s. auto.
    + left. intros [->|H]; [|contradiction].
      unfold aeqb in E. rewrite Ascii.eqb_refl in E. discriminate.
  - right. exists (c :: front), t. auto.
Qed.

Lemma last_line_none (s : str) : ~ In LF s -> last_line s = s.
Proof. intros H. unfold last_line. now rewrite split_on_none. Qed.

Lemma last_line_after (front t : str) :
  ~ In LF t -> last_line (front ++ LF :: t) = t.
Proof.
  intros H. unfold last_line. rewrite split_on_last by assumption.
  apply last_last.
Qed.

Lemma lastIndexOf_from_none (c : ascii) (s : str) (i : nat) (found : Z) :
  ~ In c s -> lastIndexOf_from c s i found = found.
Proof.
  revert i found. induction s as [|x s IH]; intros i found H; cbn [lastIndexOf_from];
    [reflexivity|].
  destruct (aeqb x c) eqn:E.
  - apply aeqb_eq in E. subst x. exfalso. apply H. now left.
  - apply IH. intros Hin. apply H. now right.
Qed.

Lemma lastIndexOf_from_after (c : ascii) (front t : str) (i : nat) (found : Z) :
  ~ In c t ->
  lastIndexOf_from c (front ++ c :: t) i found = Z.of_nat (i + length front).
Proof.
  intros Ht. revert i found.
  induction front as [|x front IH]; intros i found; cbn [app lastIndexOf_from length].
  - unfold aeqb. rewrite Ascii.eqb_refl. rewrite lastIndexOf_from_none by assumption.
    f_equal. lia.
  - rewrite IH. f_equal. lia.
Qed.

(** X5.  The gutter gets one entry per line of the text, a text without
    line feed counting as one line, the empty text included; the entries are
    numbered from 1. *)
Theorem updateGutter_lines (s : Session) :
  let n := S (length (filter (fun c => aeqb c LF) (editorValue s))) in
  gutterLines (editorValue s) = n /\
  gutter (updateGutter s) =
    map (fun i => lit "<div>" ++ dec i ++ lit "</div>") (seq 1 n).
Proof.
  intros n. subst n.
  assert (E : gutterLines (editorValue s) =
              S (length (filter (fun c => aeqb c LF) (editorValue s)))).
  { unfold gutterLines. now rewrite split_on_length. }
  split; [exact E|]. unfold updateGutter. cbn [gutter with_gutter].
  rewrite E, <- seq_shift, map_map.
  apply map_ext. intros i. now rewrite Nat.add_1_r.
Qed.

(** X6.  For a caret inside the text, the line shown is one more than the
    number of line feeds before the caret, and the column one more than the
    number of characters between the last line feed before the caret (or
    the start of the text) and the caret. *)
Theorem caret_line_and_column (value : str) (p : nat) :
  p <= length value ->
  caretLine value p = S (length (filter (fun c => aeqb c LF) (firstn p value))) /\
  caretCol value p = Z.of_nat (S (length (last_line (firstn p value)))).
Proof.
  intros Hp. unfold caretLine, caretCol, slice. rewrite Nat.sub_0_r. cbn [skipn].
  split; [apply split_on_length|].
  assert (Hlen : length (firstn p value) = p) by (rewrite length_firstn; lia).
  unfold lastIndexOf.
  destruct (last_feed (firstn p value)) as [Hno|(front & t & E & Ht)].
  - rewrite lastIndexOf_from_none, last_line_none by assumption. lia.
  - rewrite E, lastIndexOf_from_after, last_line_after by assumption.
    rewrite E, length_app in Hlen. cbn in Hlen. lia.
Qed.

Lemma caret_line_and_column_witness :
  3 <= length text_abc /\
  caretLine text_abc 3 = S (length (filter (fun c => aeqb c LF) (firstn 3 text_abc))) /\
  caretCol text_abc 3 = Z.of_nat (S (length (last_line (firstn 3 text_abc)))).
Proof.
  assert (H : 3 <= length text_abc) by (cbn; lia).
  split; [exact H|]. exact (caret_line_and_column text_abc 3 H).
Defined.

(** ** The frame callback of scheduleHighlight *)

Lemma normalise_tabs (v : str) :
  Plain.replace true (RLit TAB) (fun _ => lit "  ") v = expand_tabs v.
Proof. unfold Plain.replace, RLit. apply replace_char. Qed.

Lemma expand_tabs_no_tab (v : str) : ~ In TAB (expand_tabs v).
Proof.
  unfold expand_tabs. induction v as [|c v IH]; cbn [flat_map]; [intros []|].
  intros H. apply in_app_or in H as [H|H]; [|contradiction].
  destruct (aeqb TAB c) eqn:E.
  - destruct H as [H|[H|[]]]; discriminate H.
  - destruct H as [H|[]]. subst c. unfold aeqb in E.
    rewrite Ascii.eqb_refl in E. discriminate.
Qed.

Lemma store_content_found (a : option str) (c : str)
    (before : list Tab) (t : Tab) (after : list Tab) :
  (forall u, In u before -> id_is a u = false) -> id_is a t = true ->
  store_content a c (before ++ t :: after) = before ++ with_content c t :: after.
Proof.
  intros Hb Ht. induction before as [|u before IH]; cbn [app store_content].
  - now rewrite Ht.
  - rewrite (Hb u (or_introl eq_refl)). f_equal. apply IH.
    intros x Hx. apply Hb. now right.
Qed.

Lemma store_content_missing (a : option str) (c : str) (ts : list Tab) :
  (forall u, In u ts -> id_is a u = false) -> store_content a c ts = ts.
Proof.
  induction ts as [|u ts IH]; cbn [store_content]; intros H; [reflexivity|].
  rewrite (H u (or_introl eq_refl)). f_equal. apply IH.
  intros x Hx. apply H. now right.
Qed.

(** X7.  When the frame callback runs, the first tab that carries the active
    id gets the text of the editor with every tab character turned into two
    spaces, a text without tab characters; the tabs before and after it are
    left as they were. *)
Theorem runHighlight_stores_content (s : Session)
    (before : list Tab) (t : Tab) (after : list Tab) :
  openTabs s = before ++ t :: after ->
  (forall u, In u before -> id_is (activeTabId s) u = false) ->
  id_is (activeTabId s) t = true ->
  openTabs (runHighlight s) =
    before ++ with_content (expand_tabs (editorValue s)) t :: after /\
  ~ In TAB (expand_tabs (editorValue s)) /\
  activeTabId (runHighlight s) = activeTabId s.
Proof.
  intros Htabs Hb Ht. split; [|split; [apply expand_tabs_no_tab|reflexivity]].
  unfold runHighlight. cbn [openTabs activeTabId editorValue with_raf with_tabs
    with_highlight updateGutter updateCaretStatus with_gutter with_statusPos].
  rewrite normalise_tabs, Htabs. now apply store_content_found.
Qed.

Lemma runHighlight_stores_content_witness :
  let s := with_editor (TAB :: lit "x") 0 0
             (sample_session ["index.html"; "app.js"] "app.js") in
  openTabs s = [sample_tab "index.html"] ++ sample_tab "app.js" :: [] /\
  (forall u, In u [sample_tab "index.html"] -> id_is (activeTabId s) u = false) /\
  id_is (activeTabId s) (sample_tab "app.js") = true /\
  openTabs (runHighlight s) =
    [sample_tab "index.html"]
      ++ with_content (expand_tabs (editorValue s)) (sample_tab "app.js") :: [] /\
  ~ In TAB (expand_tabs (editorValue s)) /\
  activeTabId (runHighlight s) = activeTabId s.
Proof.
  set (s := with_editor (TAB :: lit "x") 0 0
              (sample_session ["index.html"; "app.js"] "app.js")).
  assert (H1 : openTabs s = [sample_tab "index.html"] ++ sample_tab "app.js" :: [])
    by reflexivity.
  assert (H2 : forall u, In u [sample_tab "index.html"] -> id_is (activeTabId s) u = false).
  { intros u [<-|[]]. reflexivity. }
  assert (H3 : id_is (activeTabId s) (sample_tab "app.js") = true) by reflexivity.
  split; [exact H1|]. split; [exact H2|]. split; [exact H3|].
  exact (runHighlight_stores_content s [sample_tab "index.html"] (sample_tab "app.js") []
           H1 H2 H3).
Defined.

Lemma highlightByMode_empty (mode : str) : Plain.highlightByMode [] mode = [].
Proof.
  unfold Plain.highlightByMode, highlightByMode.
  destruct (str_eqb mode (lit "js")); [reflexivity|].
  destruct (str_eqb mode (lit "css")); [reflexivity|].
  destruct (str_eqb mode (lit "html")); reflexivity.
Qed.

(** X8.  The frame callback does not touch the text control: value and
    selection stay, so tab characters typed or pasted stay in the editor
    while the stored content has none.  It clears the pending flag, keeps
    names and ids of the tabs, never leaves the highlight layer empty, and
    for the empty text, whatever the language, writes the placeholder and
    one gutter entry. *)
Theorem runHighlight_view (s : Session) :
  editorValue (runHighlight s) = editorValue s /\
  selectionStart (runHighlight s) = selectionStart s /\
  selectionEnd (runHighlight s) = selectionEnd s /\
  raf (runHighlight s) = false /\
  map tab_id (openTabs (runHighlight s)) = map tab_id (openTabs s) /\
  map tab_name (openTabs (runHighlight s)) = map tab_name (openTabs s) /\
  0 < length (highlightMarkup (runHighlight s)) /\
  highlightMarkup (runHighlight (with_editor [] 0 0 s)) = empty_placeholder /\
  length (gutter (runHighlight (with_editor [] 0 0 s))) = 1.
Proof.
  repeat match goal with |- _ /\ _ => split end; try reflexivity.
  - apply store_content_names.
  - apply store_content_names.
  - unfold runHighlight. cbn [highlightMarkup updateCaretStatus updateGutter
      with_statusPos with_gutter with_highlight].
    destruct (Plain.highlightByMode _ _); cbn; lia.
  - unfold runHighlight. cbn [highlightMarkup updateCaretStatus updateGutter
      with_statusPos with_gutter with_highlight editorValue with_raf with_editor].
    rewrite normalise_tabs. cbn [expand_tabs flat_map].
    now rewrite highlightByMode_empty.
Qed.

(** ** Opening and closing tabs *)

Lemma find_none_all {A} (p : A -> bool) (l : list A) :
  (forall x, In x l -> p x = false) -> find p l = None.
Proof.
  induction l as [|y l IH]; cbn [find]; intros H; [reflexivity|].
  rewrite (H y (or_introl eq_refl)). apply IH. intros x Hx. apply H. now right.
Qed.

Lemma name_not_open (node : FileNode) (s : Session) :
  (forall t, In t (openTabs s) -> tab_name t <> node_name node) ->
  find (fun t => str_eqb (tab_name t) (node_name node)) (openTabs s) = None.
Proof. intros H. apply find_none_all. intros t Ht. apply str_eqb_neq. auto. Qed.

(** the tab that [createTab] makes of a node *)
Lemma createTab_result (up : str -> str) (usf : Session -> str)
    (node : FileNode) (rnd : str) (s : Session) :
  let tab := {| tab_id := uid (node_name node) rnd;
                tab_name := node_name node;
                tab_language := str_or (node_language node)
                                       (detectLanguage (node_name node));
                tab_content := str_or (node_content node) [] |} in
  openTabs (createTab up usf node rnd s) = openTabs s ++ [tab] /\
  activeTabId (createTab up usf node rnd s) = Some (tab_id tab) /\
  editorValue (createTab up usf node rnd s) = tab_content tab /\
  editorTabId (createTab up usf node rnd s) = Some (tab_id tab) /\
  statusMode (createTab up usf node rnd s) = up (tab_language tab) /\
  statusFile (createTab up usf node rnd s) = tab_name tab /\
  raf (createTab up usf node rnd s) = true.
Proof.
  intros tab. unfold createTab. fold tab.
  split; [|split; [|split; [|split; [|split; [|split]]]]].
  - etransitivity; [apply loadTabContent_model|]. reflexivity.
  - etransitivity; [apply loadTabContent_model|]. reflexivity.
  - apply loadTabContent_view.
  - reflexivity.
  - apply loadTabContent_view.
  - apply loadTabContent_view.
  - apply loadTabContent_view.
Qed.



(** X10.  Opening a file that is not open and closing the new tab gives back
    the sequence of open tabs; the active tab is then the last tab of that
    sequence, whichever tab was active before, and null when there is
    none. *)
Theorem open_then_close (up : str -> str) (usf : Session -> str)
    (node : FileNode) (rnd : str) (s : Session) :
  (forall t, In t (openTabs s) -> tab_name t <> node_name node) ->
  (forall t, In t (openTabs s) -> tab_id t <> uid (node_name node) rnd) ->
  exists s',
    closeTab up usf (uid (node_name node) rnd) (openFileTab up usf node rnd s) = Ok s' /\
    openTabs s' = openTabs s /\
    activeTabId s' = option_map tab_id (hd_error (rev (openTabs s))).
Proof.
  intros Hname Hid.
  unfold openFileTab. rewrite (name_not_open node s Hname).
  destruct (createTab_result up usf node rnd s) as (Ht & Ha & _).
  set (tab := {| tab_id := uid (node_name node) rnd; tab_name := node_name node;
                 tab_language := str_or (node_language node)
                                        (detectLanguage (node_name node));
                 tab_content := str_or (node_content node) [] |}) in *.
  destruct (closeTab_removes_active up usf (openTabs s) tab [] (createTab up usf node rnd s)
              Ht Hid Ha) as (s' & Hc & Ht' & Ha' & _).
  exists s'. split; [exact Hc|]. rewrite app_nil_r in Ht'. split; [exact Ht'|].
  rewrite Ha'. unfold successor. destruct (rev (openTabs s)); reflexivity.
Qed.

Lemma open_then_close_witness :
  let s := sample_session ["index.html"; "style.css"] "index.html" in
  (forall t, In t (openTabs s) -> tab_name t <> node_name sample_node) /\
  (forall t, In t (openTabs s) -> tab_id t <> uid (node_name sample_node) (lit "zz")) /\
  exists s',
    closeTab upper_ascii statusFileLabel (uid (node_name sample_node) (lit "zz"))
      (openFileTab upper_ascii statusFileLabel sample_node (lit "zz") s) = Ok s' /\
    openTabs s' = openTabs s /\
    activeTabId s' = option_map tab_id (hd_error (rev (openTabs s))).
Proof.
  set (s := sample_session ["index.html"; "style.css"] "index.html").
  assert (H1 : forall t, In t (openTabs s) -> tab_name t <> node_name sample_node).
  { intros t [<-|[<-|[]]]; vm_compute; discriminate. }
  assert (H2 : forall t, In t (openTabs s) ->
                         tab_id t <> uid (node_name sample_node) (lit "zz")).
  { intros t [<-|[<-|[]]]; vm_compute; discriminate. }
  split; [exact H1|]. split; [exact H2|].
  exact (open_then_close upper_ascii statusFileLabel sample_node (lit "zz") s H1 H2).
Defined.

Lemma find_app_last {A} (p : A -> bool) (l : list A) (x : A) :
  (forall y, In y l -> p y = false) -> p x = true -> find p (l ++ [x]) = Some x.
Proof.
  induction l as [|y l IH]; cbn [app find]; intros Hl Hx.
  - now rewrite Hx.
  - rewrite (Hl y (or_introl eq_refl)). apply IH; auto. intros z Hz. apply Hl. now right.
Qed.

(** after [openFileTab], the first tab of the node's name is the active one
    and its content is in the editor *)
Lemma openFileTab_opened (up : str -> str) (usf : Session -> str)
    (node : FileNode) (rnd : str) (s : Session) :
  exists t,
    find (fun t => str_eqb (tab_name t) (node_name node))
         (openTabs (openFileTab up usf node rnd s)) = Some t /\
    activeTabId (openFileTab up usf node rnd s) = Some (tab_id t) /\
    editorValue (openFileTab up usf node rnd s) = tab_content t.
Proof.
  destruct (find (fun t => str_eqb (tab_name t) (node_name node)) (openTabs s))
    as [t|] eqn:E.
  - destruct (openFileTab_existing up usf node rnd s t E) as (H1 & H2 & H3 & _).
    exists t. rewrite H1. auto.
  - unfold openFileTab. rewrite E.
    destruct (createTab_result up usf node rnd s) as (H1 & H2 & H3 & _).
    eexists. rewrite H1. split; [|split; [exact H2|exact H3]].
    apply find_app_last.
    + intros y Hy. exact (find_none _ _ E y Hy).
    + cbn. apply str_eqb_refl.
Qed.

(** X11.  Opening the same node a second time changes neither the sequence
    of open tabs nor the active tab nor the text in the editor, whatever the
    random parts. *)
Theorem openFileTab_twice (up : str -> str) (usf : Session -> str)
    (node : FileNode) (rnd1 rnd2 : str) (s : Session) :
  let s1 := openFileTab up usf node rnd1 s in
  let s2 := openFileTab up usf node rnd2 s1 in
  openTabs s2 = openTabs s1 /\
  activeTabId s2 = activeTabId s1 /\
  editorValue s2 = editorValue s1.
Proof.
  intros s1 s2. subst s2.
  destruct (openFileTab_opened up usf node rnd1 s) as (t & Hf & Ha & Hv).
  fold s1 in Hf, Ha, Hv.
  destruct (openFileTab_existing up usf node rnd2 s1 t Hf) as (H1 & H2 & H3 & _).
  rewrite H1, H2, H3, Ha, Hv. auto.
Qed.

(** [closeTab] on a tab that is not the active one *)
Lemma closeTab_other (up : str -> str) (usf : Session -> str)
    (before : list Tab) (t : Tab) (after : list Tab) (s : Session) :
  openTabs s = before ++ t :: after ->
  (forall u, In u before -> tab_id u <> tab_id t) ->
  same_id (activeTabId s) (tab_id t) = false ->
  closeTab up usf (tab_id t) s =
    Ok (renderTabs usf (with_tabs (before ++ after) (activeTabId s) s)).
Proof.
  intros Htabs Hfirst Hact.
  destruct (closeTab_found before t after s Htabs Hfirst) as [Hidx Hrem].
  unfold closeTab. rewrite Hidx, Hrem. cbn [activeTabId with_tabs].
  now rewrite Hact.
Qed.

(** X12.  Closing a tab that is not the active one removes it and leaves the
    active id, the text in the editor, the selection, the highlight layer
    and the gutter as they were. *)
Theorem closeTab_inactive (up : str -> str) (usf : Session -> str)
    (before : list Tab) (t : Tab) (after : list Tab) (s : Session) :
  openTabs s = before ++ t :: after ->
  (forall u, In u before -> tab_id u <> tab_id t) ->
  activeTabId s <> Some (tab_id t) ->
  exists s',
    closeTab up usf (tab_id t) s = Ok s' /\
    openTabs s' = before ++ after /\
    activeTabId s' = activeTabId s /\
    editorValue s' = editorValue s /\
    selectionStart s' = selectionStart s /\
    selectionEnd s' = selectionEnd s /\
    highlightMarkup s' = highlightMarkup s /\
    gutter s' = gutter s.
Proof.
  intros Htabs Hfirst Hact.
  assert (Hs : same_id (activeTabId s) (tab_id t) = false).
  { unfold same_id. destruct (activeTabId s) as [i|]; [|reflexivity].
    apply str_eqb_neq. intros ->. now apply Hact. }
  rewrite (closeTab_other up usf before t after s Htabs Hfirst Hs).
  eexists. split; [reflexivity|]. repeat split.
Qed.

Lemma closeTab_inactive_witness :
  let s := sample_session ["index.html"; "style.css"; "app.js"] "app.js" in
  let t := sample_tab "style.css" in
  openTabs s = [sample_tab "index.html"] ++ t :: [sample_tab "app.js"] /\
  (forall u, In u [sample_tab "index.html"] -> tab_id u <> tab_id t) /\
  activeTabId s <> Some (tab_id t) /\
  exists s',
    closeTab upper_ascii statusFileLabel (tab_id t) s = Ok s' /\
    openTabs s' = [sample_tab "index.html"] ++ [sample_tab "app.js"] /\
    activeTabId s' = activeTabId s /\
    editorValue s' = editorValue s /\
    selectionStart s' = selectionStart s /\
    selectionEnd s' = selectionEnd s /\
    highlightMarkup s' = highlightMarkup s /\
    gutter s' = gutter s.
Proof.
  set (s := sample_session ["index.html"; "style.css"; "app.js"] "app.js").
  assert (H1 : openTabs s
               = [sample_tab "index.html"] ++ sample_tab "style.css" :: [sample_tab "app.js"])
    by reflexivity.
  assert (H2 : forall u, In u [sample_tab "index.html"] ->
                         tab_id u <> tab_id (sample_tab "style.css")).
  { intros u [<-|[]]. vm_compute. discriminate. }
  assert (H3 : activeTabId s <> Some (tab_id (sample_tab "style.css")))
    by (vm_compute; discriminate).
  split; [exact H1|]. split; [exact H2|]. split; [exact H3|].
  exact (closeTab_inactive upper_ascii statusFileLabel [sample_tab "index.html"]
           (sample_tab "style.css") [sample_tab "app.js"] s H1 H2 H3).
Defined.

(** ** Switching tabs *)

Lemma clickTab_result (up : str -> str) (usf : Session -> str)
    (i : nat) (t : Tab) (s : Session) :
  nth_error (openTabs s) i = Some t ->
  openTabs (clickTab up usf i s) = openTabs s /\
  activeTabId (clickTab up usf i s) = Some (tab_id t) /\
  editorValue (clickTab up usf i s) = tab_content t /\
  statusMode (clickTab up usf i s) = up (tab_language t) /\
  raf (clickTab up usf i s) = true.
Proof.
  intros H. unfold clickTab. rewrite H.
  split; [|split; [|split; [|split]]].
  - etransitivity; [apply renderTabs_model|].
    etransitivity; [apply loadTabContent_model|]. reflexivity.
  - etransitivity; [apply renderTabs_model|].
    etransitivity; [apply loadTabContent_model|]. reflexivity.
  - unfold renderTabs. cbn [editorValue with_statusFile with_tabStrip].
    apply loadTabContent_view.
  - unfold renderTabs. cbn [statusMode with_statusFile with_tabStrip].
    apply loadTabContent_view.
  - unfold renderTabs. cbn [raf with_statusFile with_tabStrip].
    apply loadTabContent_view.
Qed.



(** ** What every handler keeps *)

Lemma set_value_strip (v : str) (s : Session) : tabStrip (set_value v s) = tabStrip s.
Proof. unfold set_value. destruct (str_eqb v (editorValue s)); reflexivity. Qed.

Lemma loadTabContent_strip (up : str -> str) (t : Tab) (s : Session) :
  tabStrip (loadTabContent up t s) = tabStrip s.
Proof. unfold loadTabContent. cbn. apply set_value_strip. Qed.

Lemma strip_synced_same (s s' : Session) :
  tabStrip s' = tabStrip s -> openTabs s' = openTabs s ->
  activeTabId s' = activeTabId s -> strip_synced s -> strip_synced s'.
Proof. unfold strip_synced. intros -> -> ->. auto. Qed.

Lemma strip_synced_renderTabs (usf : Session -> str) (s : Session) :
  strip_synced (renderTabs usf s).
Proof. reflexivity. Qed.

Lemma strip_synced_load (up : str -> str) (usf : Session -> str) (t : Tab) (s : Session) :
  strip_synced (loadTabContent up t (renderTabs usf s)).
Proof.
  apply (strip_synced_same (renderTabs usf s)).
  - apply loadTabContent_strip.
  - apply loadTabContent_model.
  - apply loadTabContent_model.
  - apply strip_synced_renderTabs.
Qed.

Lemma store_content_strip (a a' : option str) (c : str) (ts : list Tab) :
  map (fun t => (tab_name t, id_is a' t)) (store_content a c ts) =
  map (fun t => (tab_name t, id_is a' t)) ts.
Proof.
  induction ts as [|t ts IH]; cbn [store_content map]; [reflexivity|].
  destruct (id_is a t); cbn [map]; [reflexivity|]. now rewrite IH.
Qed.

Lemma closeTab_shape (up : str -> str) (usf : Session -> str) (id : str) (s s' : Session) :
  closeTab up usf id s = Ok s' -> s' = s \/ exists x, s' = renderTabs usf x.
Proof.
  unfold closeTab.
  destruct (findIndex _ _) as [idx|]; [|intros [= <-]; now left].
  destruct (same_id _ _); [|intros [= <-]; right; eauto].
  match goal with |- context [truthy ?a] => destruct (truthy a) end.
  - match goal with |- context [find ?p ?l] => destruct (find p l) end;
      [intros [= <-]; right; eauto|discriminate].
  - intros [= <-]. right. eauto.
Qed.

(** X14.  The tab strip always shows the open tabs in their order, each
    with its name, the tabs carrying the active id marked: every handler
    that changes the tabs or the active id redraws the strip, and the others
    leave all three alone. *)
Theorem handle_keeps_strip_synced (up : str -> str) (usf : Session -> str)
    (e : event) (s s' : Session) :
  strip_synced s -> handle up usf e s = Ok s' -> strip_synced s'.
Proof.
  intros Hs. destruct e as [node rnd|id|i| |v a b|a b| ]; cbn [handle].
  - intros [= <-]. unfold openFileTab.
    destruct (find _ _); [apply strip_synced_load|].
    unfold createTab. apply strip_synced_load.
  - intros H. apply closeTab_shape in H as [->|(x & ->)];
      [assumption|apply strip_synced_renderTabs].
  - intros [= <-]. unfold clickTab.
    destruct (nth_error _ _); [apply strip_synced_renderTabs|assumption].
  - intros [= <-]. destruct (keydownTab_model s) as [H1 H2].
    apply (strip_synced_same s); auto.
    unfold keydownTab, set_selectionStart, set_selectionEnd, setSelectionRange.
    cbn [tabStrip scheduleHighlight with_raf].
    repeat match goal with |- context [if ?c then _ else _] => destruct c end;
      cbn [tabStrip with_editor]; apply set_value_strip.
  - intros [= <-].
    destruct (setSelectionRange_model a b (with_editor v 0 0 s)) as [H1 H2].
    apply (strip_synced_same s); auto.
    unfold setSelectionRange. cbn [tabStrip scheduleHighlight with_raf].
    destruct (_ <=? _); reflexivity.
  - intros [= <-]. destruct (setSelectionRange_model a b s) as [H1 H2].
    apply (strip_synced_same s); auto.
    unfold setSelectionRange. cbn [tabStrip updateCaretStatus with_statusPos].
    destruct (_ <=? _); reflexivity.
  - intros [= <-]. destruct (raf s); [|assumption].
    unfold strip_synced, runHighlight in *.
    cbn [tabStrip openTabs activeTabId with_raf with_tabs with_highlight
         updateGutter updateCaretStatus with_gutter with_statusPos].
    now rewrite store_content_strip.
Qed.

Lemma handle_keeps_strip_synced_witness :
  strip_synced initial /\
  handle upper_ascii statusFileLabel (EOpenFile sample_node (lit "k3x9q2a")) initial
    = Ok (openFileTab upper_ascii statusFileLabel sample_node (lit "k3x9q2a") initial) /\
  strip_synced (openFileTab upper_ascii statusFileLabel sample_node (lit "k3x9q2a") initial).
Proof.
  assert (H1 : strip_synced initial) by reflexivity.
  assert (H2 : handle upper_ascii statusFileLabel
                 (EOpenFile sample_node (lit "k3x9q2a")) initial
               = Ok (openFileTab upper_ascii statusFileLabel sample_node
                       (lit "k3x9q2a") initial)) by reflexivity.
  split; [exact H1|]. split; [exact H2|].
  exact (handle_keeps_strip_synced upper_ascii statusFileLabel
           (EOpenFile sample_node (lit "k3x9q2a")) initial _ H1 H2).
Defined.

Lemma Settled_same_model (s s' : Session) :
  map tab_name (openTabs s') = map tab_name (openTabs s) ->
  map tab_id (openTabs s') = map tab_id (openTabs s) ->
  activeTabId s' = activeTabId s ->
  Settled s -> Settled s'.
Proof.
  intros Hn Hi Ha (HI & Hids & Hnone). split; [|split].
  - now apply (Inv_same_model s).
  - now rewrite Hi.
  - rewrite Ha, Hnone. split; intros E.
    + rewrite E in Hi. cbn in Hi. now apply map_eq_nil in Hi.
    + rewrite E in Hi. cbn in Hi. symmetry in Hi. now apply map_eq_nil in Hi.
Qed.

Lemma uid_not_empty (name rnd : str) : uid name rnd <> [].
Proof. unfold uid. destruct name; discriminate. Qed.

Lemma successor_none (before after : list Tab) :
  successor before after = None <-> before ++ after = [].
Proof.
  unfold successor. split.
  - destruct (rev before) as [|p r] eqn:E; [|discriminate].
    destruct after; [|discriminate]. intros _.
    apply (f_equal (@rev Tab)) in E. rewrite rev_involutive in E. now rewrite E.
  - intros E. apply app_eq_nil in E as [-> ->]. reflexivity.
Qed.

Lemma not_in_remove {A} (x : A) (l1 : list A) (y : A) (l2 : list A) :
  ~ In x (l1 ++ y :: l2) -> ~ In x (l1 ++ l2).
Proof.
  intros H Hin. apply H. apply in_app_or in Hin as [Hin|Hin]; apply in_or_app; auto.
  right. now right.
Qed.

Lemma Settled_openFileTab (up : str -> str) (usf : Session -> str)
    (node : FileNode) (rnd : str) (s : Session) :
  Settled s -> Settled (openFileTab up usf node rnd s).
Proof.
  intros (HI & Hids & Hnone). split; [now apply Inv_openFileTab|].
  destruct (openFileTab_opened up usf node rnd s) as (t & Hf & Ha & _).
  split.
  - destruct (find (fun t => str_eqb (tab_name t) (node_name node)) (openTabs s))
      as [t0|] eqn:E.
    + destruct (openFileTab_existing up usf node rnd s t0 E) as (H1 & _). now rewrite H1.
    + unfold openFileTab. rewrite E.
      destruct (createTab_result up usf node rnd s) as (H1 & _). rewrite H1, map_app.
      intros Hin. apply in_app_or in Hin as [Hin|[Hin|[]]]; [contradiction|].
      cbn in Hin. now apply uid_not_empty in Hin.
  - rewrite Ha. split; [discriminate|]. intros E. rewrite E in Hf. discriminate.
Qed.

Lemma Settled_closeTab (up : str -> str) (usf : Session -> str) (id : str) (s : Session) :
  Settled s -> exists s', closeTab up usf id s = Ok s' /\ Settled s'.
Proof.
  intros (HI & Hids & Hnone).
  destruct (Inv_closeTab up usf id s HI) as (s' & Hc & HI').
  exists s'. split; [exact Hc|]. split; [exact HI'|].
  destruct (findIndex (fun t => str_eqb (tab_id t) id) (openTabs s)) as [idx|] eqn:E.
  2: { unfold closeTab in Hc. rewrite E in Hc. injection Hc as <-. now split. }
  destruct (findIndex_some _ _ _ E) as (l1 & x & l2 & Htabs & Hlen & Hx & Hl1).
  apply str_eqb_eq in Hx. subst id.
  assert (Hfirst : forall u, In u l1 -> tab_id u <> tab_id x).
  { intros u Hu Heq. apply Hl1 in Hu. rewrite Heq, str_eqb_refl in Hu. discriminate. }
  assert (Hids' : ~ In [] (map tab_id (l1 ++ l2))).
  { rewrite Htabs, map_app in Hids. cbn [map] in Hids. rewrite map_app.
    now apply not_in_remove in Hids. }
  destruct (same_id (activeTabId s) (tab_id x)) eqn:Es.
  - assert (Hact : activeTabId s = Some (tab_id x)).
    { unfold same_id in Es. destruct (activeTabId s) as [i|]; [|discriminate].
      apply str_eqb_eq in Es. congruence. }
    destruct (closeTab_removes_active up usf l1 x l2 s Htabs Hfirst Hact)
      as (s'' & Hc' & Ht & Ha & _).
    rewrite Hc in Hc'. injection Hc' as <-. rewrite Ht, Ha. split; [exact Hids'|].
    rewrite <- successor_none. destruct (successor l1 l2); cbn; split; congruence.
  - rewrite (closeTab_other up usf l1 x l2 s Htabs Hfirst Es) in Hc.
    injection Hc as <-. cbn [openTabs activeTabId renderTabs with_statusFile
      with_tabStrip with_tabs]. split; [exact Hids'|].
    destruct (activeTabId s) as [i|] eqn:Ea.
    + split; [discriminate|]. intros E0.
      destruct HI' as [Hok _]. unfold active_ok in Hok.
      cbn [openTabs activeTabId renderTabs with_statusFile with_tabStrip with_tabs] in Hok.
      rewrite ?Ea, E0 in Hok. destruct Hok.
    + exfalso. destruct Hnone as [Hnone _]. rewrite Hnone in Htabs by reflexivity.
      destruct l1; discriminate.
Qed.

Lemma Settled_clickTab (up : str -> str) (usf : Session -> str) (i : nat) (s : Session) :
  Settled s -> Settled (clickTab up usf i s).
Proof.
  intros HS. destruct (nth_error (openTabs s) i) as [t|] eqn:E.
  - destruct (clickTab_result up usf i t s E) as (H1 & H2 & _).
    destruct HS as (HI & Hids & Hnone). split; [now apply Inv_clickTab|].
    rewrite H1, H2. split; [assumption|]. split; [discriminate|].
    intros E0. rewrite E0 in E. destruct i; discriminate.
  - unfold clickTab. now rewrite E.
Qed.

(** X15.  In every session the handlers produce from a settled one, and the
    initial session is settled, the active id is null exactly when no tab
    is open, no tab has the empty id, the active id is that of an open tab
    and the names of the open tabs are distinct; no handler throws. *)
Theorem handle_keeps_Settled (up : str -> str) (usf : Session -> str)
    (e : event) (s : Session) :
  Settled s -> exists s', handle up usf e s = Ok s' /\ Settled s'.
Proof.
  intros HS. destruct e as [node rnd|id|i| |v a b|a b| ]; cbn [handle].
  - eexists. split; [reflexivity|]. now apply Settled_openFileTab.
  - now apply Settled_closeTab.
  - eexists. split; [reflexivity|]. now apply Settled_clickTab.
  - eexists. split; [reflexivity|].
    destruct (keydownTab_model s) as [H1 H2].
    apply (Settled_same_model s); try assumption; now rewrite H1.
  - eexists. split; [reflexivity|].
    destruct (setSelectionRange_model a b (with_editor v 0 0 s)) as [H1 H2].
    apply (Settled_same_model s); try assumption; cbn; now rewrite ?H1, ?H2.
  - eexists. split; [reflexivity|].
    destruct (setSelectionRange_model a b s) as [H1 H2].
    apply (Settled_same_model s); try assumption; cbn; now rewrite ?H1, ?H2.
  - eexists. split; [reflexivity|].
    destruct (raf s); [|assumption].
    apply (Settled_same_model s); try assumption; unfold runHighlight; cbn;
      try reflexivity; apply store_content_names.
Qed.

Lemma Settled_initial : Settled initial.
Proof.
  split; [apply Inv_initial|]. split; [intros []|]. split; reflexivity.
Qed.

Lemma handle_keeps_Settled_witness :
  Settled initial /\
  exists s', handle upper_ascii statusFileLabel
               (EOpenFile sample_node (lit "k3x9q2a")) initial = Ok s' /\ Settled s'.
Proof.
  split; [exact Settled_initial|].
  exact (handle_keeps_Settled upper_ascii statusFileLabel
           (EOpenFile sample_node (lit "k3x9q2a")) initial Settled_initial).
Defined.

(** ** The selection *)

Lemma setSelectionRange_ok (a b : nat) (s : Session) :
  selection_ok (setSelectionRange a b s) /\
  editorValue (setSelectionRange a b s) = editorValue s.
Proof.
  unfold selection_ok, setSelectionRange.
  destruct (Nat.min b (length (editorValue s)) <=? Nat.min a (length (editorValue s)))
    eqn:E; cbn [selectionStart selectionEnd editorValue with_editor].
  - split; [lia|reflexivity].
  - apply Nat.leb_gt in E. split; [lia|reflexivity].
Qed.

Lemma set_value_ok (v : str) (s : Session) :
  selection_ok s -> selection_ok (set_value v s).
Proof.
  intros H. unfold set_value. destruct (str_eqb v (editorValue s)); [exact H|].
  unfold selection_ok. cbn. lia.
Qed.

Lemma loadTabContent_ok (up : str -> str) (t : Tab) (s : Session) :
  selection_ok s -> selection_ok (loadTabContent up t s).
Proof. intros H. unfold loadTabContent. exact (set_value_ok (tab_content t) s H). Qed.

(** assigning a text and then both ends of the selection, end first, as the
    key handlers do, leaves the caret where it was put *)
Lemma caret_put (v : str) (c : nat) (s : Session) :
  c <= length v ->
  let s' := set_selectionStart c (set_selectionEnd c (set_value v s)) in
  editorValue s' = v /\ selectionStart s' = c /\ selectionEnd s' = c.
Proof.
  intros Hc s'. subst s'.
  pose proof (set_value_value v s) as Hv.
  set (s1 := set_value v s) in *.
  unfold set_selectionStart, set_selectionEnd.
  set (s2 := setSelectionRange (selectionStart s1) c s1).
  assert (H2 : editorValue s2 = v /\ selectionEnd s2 = c).
  { subst s2. unfold setSelectionRange. rewrite Hv.
    destruct (Nat.min c (length v) <=? Nat.min (selectionStart s1) (length v));
      cbn [editorValue selectionEnd with_editor]; rewrite ?Hv; split; auto; lia. }
  destruct H2 as [Hv2 He2]. rewrite He2, Nat.max_id.
  unfold setSelectionRange. rewrite Hv2, Nat.leb_refl.
  cbn [editorValue selectionStart selectionEnd with_editor]. rewrite ?Hv2.
  repeat split; lia.
Qed.

Lemma renderTabs_ok (usf : Session -> str) (s : Session) :
  selection_ok s -> selection_ok (renderTabs usf s).
Proof. intros H. exact H. Qed.

Lemma closeTab_selection (up : str -> str) (usf : Session -> str)
    (id : str) (s s' : Session) :
  selection_ok s -> closeTab up usf id s = Ok s' -> selection_ok s'.
Proof.
  intros Hs. unfold closeTab.
  destruct (findIndex _ _) as [idx|]; [|intros [= <-]; exact Hs].
  destruct (same_id _ _); [|intros [= <-]; exact Hs].
  match goal with |- context [truthy ?a] => destruct (truthy a) end.
  - match goal with |- context [find ?p ?l] => destruct (find p l) as [t|] end;
      [intros [= <-]|discriminate].
    apply renderTabs_ok, loadTabContent_ok. exact Hs.
  - intros [= <-]. apply renderTabs_ok.
    apply (set_value_ok [] (with_tabs _ _ _)). exact Hs.
Qed.

(** X16.  The selection stays inside the text and in order through every
    handler, so the condition under which the Tab key was described always
    holds. *)
Theorem handle_keeps_selection (up : str -> str) (usf : Session -> str)
    (e : event) (s s' : Session) :
  selection_ok s -> handle up usf e s = Ok s' -> selection_ok s'.
Proof.
  intros Hs. destruct e as [node rnd|id|i| |v a b|a b| ]; cbn [handle].
  - intros [= <-]. unfold openFileTab. destruct (find _ _) as [t|].
    + apply loadTabContent_ok. exact Hs.
    + unfold createTab. apply loadTabContent_ok. exact Hs.
  - now apply closeTab_selection.
  - intros [= <-]. unfold clickTab. destruct (nth_error _ _) as [t|]; [|exact Hs].
    apply renderTabs_ok, loadTabContent_ok. exact Hs.
  - intros [= <-]. unfold keydownTab, set_selectionStart.
    exact (proj1 (setSelectionRange_ok _ _ _)).
  - intros [= <-]. exact (proj1 (setSelectionRange_ok a b (with_editor v 0 0 s))).
  - intros [= <-]. exact (proj1 (setSelectionRange_ok a b s)).
  - intros [= <-]. destruct (raf s); exact Hs.
Qed.

Lemma handle_keeps_selection_witness :
  selection_ok initial /\
  handle upper_ascii statusFileLabel EKeyTab initial = Ok (keydownTab initial) /\
  selection_ok (keydownTab initial).
Proof.
  assert (H1 : selection_ok initial) by (split; cbn; lia).
  assert (H2 : handle upper_ascii statusFileLabel EKeyTab initial = Ok (keydownTab initial))
    by reflexivity.
  split; [exact H1|]. split; [exact H2|].
  exact (handle_keeps_selection upper_ascii statusFileLabel EKeyTab initial _ H1 H2).
Defined.

(** ** The Enter key *)

Lemma cap_clear_nil (cs : list (nat * (nat * nat))) : cap_clear [] cs = cs.
Proof.
  unfold cap_clear. induction cs as [|kv cs IH]; simpl in *; [reflexivity|].
  now f_equal.
Qed.

Lemma star_unfold (fuel : nat) (body : mstate -> cont -> option mstate)
    (inner : list nat) (st : mstate) (k : cont) :
  star (S fuel) body inner true st k =
  body (MState (pre st) (rest st) (cap_clear inner (caps st)))
       (fun st' => if pos st' =? pos st then None
                   else star fuel body inner true st' k)
  <|> k st.
Proof. reflexivity. Qed.

(** a greedy run over a character class: one more character if it is in
    the class, and only if that leads nowhere, what follows the run *)
Lemma star_char_step (p : ascii -> bool) (before after : str)
    (cs : list (nat * (nat * nat))) (k : cont) :
  rmatch (RStar true (RChar p)) (MState before after cs) k =
  match after with
  | c :: tl =>
      if p c
      then rmatch (RStar true (RChar p)) (MState (c :: before) tl cs) k
           <|> k (MState before after cs)
      else k (MState before after cs)
  | [] => k (MState before after cs)
  end.
Proof.
  change (rmatch (RStar true (RChar p)) (MState before after cs) k)
    with (star (S (length after)) (rmatch (RChar p)) [] true (MState before after cs) k).
  rewrite star_unfold. cbn [pre rest caps]. rewrite cap_clear_nil.
  destruct after as [|c tl]; [reflexivity|].
  change (rmatch (RChar p) (MState before (c :: tl) cs)
            (fun st' => if pos st' =? pos (MState before (c :: tl) cs) then None
                        else star (length (c :: tl)) (rmatch (RChar p)) [] true st' k))
    with (if p c
          then (if pos (MState (c :: before) tl cs) =? pos (MState before (c :: tl) cs)
                then None
                else star (length (c :: tl)) (rmatch (RChar p)) [] true
                          (MState (c :: before) tl cs) k)
          else None).
  destruct (p c); [|reflexivity].
  unfold pos. cbn [pre length].
  replace (S (length before) =? length before) with false
    by (symmetry; apply Nat.eqb_neq; lia).
  reflexivity.
Qed.

Lemma star_char_longest (p : ascii -> bool) (w r : str) (k : cont) (e : mstate) :
  forallb p w = true ->
  match r with c :: _ => p c = false | [] => True end ->
  forall before cs,
    k (MState (rev w ++ before) r cs) = Some e ->
    rmatch (RStar true (RChar p)) (MState before (w ++ r) cs) k = Some e.
Proof.
  intros Hw Hr. induction w as [|c w IH]; intros before cs Hk; rewrite star_char_step.
  - cbn [app rev] in *. destruct r as [|c tl]; [exact Hk|]. now rewrite Hr.
  - cbn [forallb] in Hw. apply andb_true_iff in Hw as [Hc Hw].
    cbn [app]. rewrite Hc. rewrite (IH Hw (c :: before) cs); [reflexivity|].
    cbn [rev] in Hk. now rewrite <- app_assoc in Hk.
Qed.

Lemma star_char_consumed (p : ascii -> bool) (k : cont) (e : mstate) (after : str) :
  forall before cs,
    rmatch (RStar true (RChar p)) (MState before after cs) k = Some e ->
    exists w r, after = w ++ r /\ forallb p w = true /\
                k (MState (rev w ++ before) r cs) = Some e.
Proof.
  induction after as [|c tl IH]; intros before cs; rewrite star_char_step.
  - intros H. exists [], []. auto.
  - destruct (p c) eqn:Hc.
    + destruct (rmatch (RStar true (RChar p)) (MState (c :: before) tl cs) k) eqn:E.
      * intros [= <-]. apply IH in E as (w & r & -> & Hw & Hk).
        exists (c :: w), r. cbn [app forallb rev]. rewrite Hc, Hw, <- app_assoc. auto.
      * intros H. exists [], (c :: tl). auto.
    + intros H. exists [], (c :: tl). auto.
Qed.

Lemma rmatch_seq (a b : regex) (st : mstate) (k : cont) :
  rmatch (RSeq a b) st k = rmatch a st (fun st' => rmatch b st' k).
Proof. reflexivity. Qed.

Lemma rmatch_alt (a b : regex) (st : mstate) (k : cont) :
  rmatch (RAlt a b) st k = rmatch a st k <|> rmatch b st k.
Proof. reflexivity. Qed.

Lemma rmatch_group (n : nat) (a : regex) (st : mstate) (k : cont) :
  rmatch (RGroup n a) st k =
  rmatch a st (fun st' =>
    k (MState (pre st') (rest st') (cap_set n (pos st, pos st') (caps st')))).
Proof. reflexivity. Qed.

Lemma rmatch_char (p : ascii -> bool) (before : str) (c : ascii) (tl : str)
    (cs : list (nat * (nat * nat))) (k : cont) :
  rmatch (RChar p) (MState before (c :: tl) cs) k =
  if p c then k (MState (c :: before) tl cs) else None.
Proof. reflexivity. Qed.

Lemma no_feed_forallb (l : str) :
  ~ In LF l -> forallb (fun c => negb (aeqb c LF)) l = true.
Proof.
  induction l as [|c l IH]; cbn [forallb]; intros H; [reflexivity|].
  rewrite IH by (intros Hin; apply H; now right).
  destruct (aeqb c LF) eqn:E; [|reflexivity].
  apply aeqb_eq in E. subst c. exfalso. apply H. now left.
Qed.

Lemma forallb_no_feed (p : ascii -> bool) (l : str) :
  p LF = false -> forallb p l = true -> ~ In LF l.
Proof.
  intros Hp Hl Hin. rewrite forallb_forall in Hl. apply Hl in Hin. congruence.
Qed.

(** the part of the pattern after group 1, at the start of the last line:
    group 2 takes the leading spaces and tabs, the rest of the line
    follows *)
Lemma enter_tail_ok (ws body : str) (before : str) (cs : list (nat * (nat * nat))) :
  forallb is_indent_char ws = true ->
  match body with c :: _ => is_indent_char c = false | [] => True end ->
  ~ In LF body ->
  rmatch (RSeqs [RGroup 2 (RStar true (RChar is_indent_char));
                 RStar true (RChar (fun c => negb (aeqb c LF)));
                 REol false])
         (MState before (ws ++ body) cs) Some =
  Some (MState (rev body ++ rev ws ++ before) []
               (cap_set 2 (length before, length (rev ws ++ before)) cs)).
Proof.
  intros Hws Hbody Hno. cbn [RSeqs]. rewrite rmatch_seq, rmatch_group.
  apply star_char_longest; [assumption|assumption|].
  cbn [pre rest caps pos]. rewrite rmatch_seq.
  rewrite <- (app_nil_r body) at 1.
  apply star_char_longest; [now apply no_feed_forallb|exact I|].
  reflexivity.
Qed.

(** the same part fails when a line feed lies ahead *)
Lemma enter_tail_fail (before after : str) (cs : list (nat * (nat * nat))) :
  In LF after ->
  rmatch (RSeqs [RGroup 2 (RStar true (RChar is_indent_char));
                 RStar true (RChar (fun c => negb (aeqb c LF)));
                 REol false])
         (MState before after cs) Some = None.
Proof.
  intros Hin.
  destruct (rmatch _ _ _) as [e|] eqn:E; [exfalso|reflexivity].
  cbn [RSeqs] in E. rewrite rmatch_seq, rmatch_group in E.
  apply star_char_consumed in E as (w1 & r1 & -> & Hw1 & E).
  cbn [pre rest caps pos] in E. rewrite rmatch_seq in E.
  apply star_char_consumed in E as (w2 & r2 & -> & Hw2 & E).
  cbn [rmatch rest] in E. destruct r2 as [|c r2]; [|discriminate E].
  rewrite app_nil_r in Hin. apply in_app_or in Hin as [Hin|Hin].
  - now apply (forallb_no_feed is_indent_char w1).
  - now apply (forallb_no_feed (fun c => negb (aeqb c LF)) w2).
Qed.

Lemma cap_lookup_set (n : nat) (v : nat * nat) (cs : list (nat * (nat * nat))) :
  cap_lookup n (cap_set n v cs) = Some v.
Proof. unfold cap_set. cbn [cap_lookup]. now rewrite Nat.eqb_refl. Qed.

Lemma rmatch_empty (st : mstate) (k : cont) : rmatch REmpty st k = k st.
Proof. reflexivity. Qed.

Ltac enter_open :=
  unfold re_enter; cbn [RSeqs]; rewrite rmatch_seq, rmatch_group, rmatch_alt.

Ltac enter_state := cbv beta iota; cbn [pre rest caps]; unfold pos; cbn [pre length].

Section EnterPattern.

Variables ws body : str.
Hypothesis ws_indent : forallb is_indent_char ws = true.
Hypothesis body_start : match body with c :: _ => is_indent_char c = false | [] => True end.
Hypothesis body_line : ~ In LF body.

(** at the start of the text *)
Lemma enter_attempt_start (before : str) :
  exists e,
    rmatch (re_enter true) (MState before (ws ++ body) []) Some = Some e /\
    cap_lookup 2 (caps e) = Some (length before, length before + length ws).
Proof.
  pose proof (enter_tail_ok ws body before
                (cap_set 1 (length before, length before) [])
                ws_indent body_start body_line) as H.
  cbn [RSeqs] in H.
  enter_open. rewrite rmatch_empty. enter_state. rewrite H.
  eexists. split; [reflexivity|]. cbn [caps]. rewrite cap_lookup_set.
  rewrite length_app, length_rev. do 2 f_equal. lia.
Qed.

(** at a line feed with no line feed after it *)
Lemma enter_attempt_feed (b : bool) (before : str) :
  exists e,
    rmatch (re_enter b) (MState before (LF :: ws ++ body) []) Some = Some e /\
    cap_lookup 2 (caps e) = Some (S (length before), S (length before) + length ws).
Proof.
  pose proof (enter_tail_ok ws body (LF :: before)
                (cap_set 1 (length before, S (length before)) [])
                ws_indent body_start body_line) as H.
  cbn [RSeqs length] in H.
  pose proof (enter_tail_fail before (LF :: ws ++ body)
                (cap_set 1 (length before, length before) [])
                (or_introl eq_refl)) as F.
  cbn [RSeqs] in F.
  enter_open. destruct b.
  - rewrite rmatch_empty. enter_state. rewrite F.
    unfold RLit. rewrite rmatch_char. unfold aeqb at 1. rewrite Ascii.eqb_refl.
    enter_state. rewrite H.
    eexists. split; [reflexivity|]. cbn [caps]. rewrite cap_lookup_set.
    rewrite length_app, length_rev. cbn [length]. do 2 f_equal. lia.
  - rewrite rmatch_char. enter_state.
    unfold RLit. rewrite rmatch_char. unfold aeqb at 1. rewrite Ascii.eqb_refl.
    enter_state. rewrite H.
    eexists. split; [reflexivity|]. cbn [caps]. rewrite cap_lookup_set.
    rewrite length_app, length_rev. cbn [length]. do 2 f_equal. lia.
Qed.

End EnterPattern.

(** where a line feed lies further on, the pattern does not match *)
Lemma enter_attempt_fail (b : bool) (before : str) (c : ascii) (tl : str) :
  In LF tl -> rmatch (re_enter b) (MState before (c :: tl) []) Some = None.
Proof.
  intros Hin.
  pose proof (enter_tail_fail before (c :: tl)
                (cap_set 1 (length before, length before) [])
                (or_intror Hin)) as F1.
  pose proof (enter_tail_fail (c :: before) tl
                (cap_set 1 (length before, S (length before)) []) Hin) as F2.
  cbn [RSeqs] in F1, F2.
  enter_open. destruct b.
  - rewrite rmatch_empty. enter_state. rewrite F1.
    unfold RLit. rewrite rmatch_char. destruct (aeqb LF c); [|reflexivity].
    enter_state. exact F2.
  - rewrite rmatch_char. enter_state.
    unfold RLit. rewrite rmatch_char. destruct (aeqb LF c); [|reflexivity].
    enter_state. exact F2.
Qed.

Lemma exec_step (r : regex) (p s : str) :
  exec r p s =
  match rmatch r (MState p s []) Some with
  | Some e => Some (MRes (length p) (pos e) (caps e), e)
  | None => match s with
            | [] => None
            | c :: s' => exec r (c :: p) s'
            end
  end.
Proof. destruct s; reflexivity. Qed.

Lemma exec_enter (ws body : str) :
  forallb is_indent_char ws = true ->
  match body with c :: _ => is_indent_char c = false | [] => True end ->
  ~ In LF body ->
  forall front before,
    exists m e,
      exec (re_enter false) before (front ++ LF :: ws ++ body) = Some (m, e) /\
      cap_lookup 2 (mcaps m) =
        Some (S (length before + length front), S (length before + length front) + length ws).
Proof.
  intros Hws Hb Hl. induction front as [|c front IH]; intros before; rewrite exec_step.
  - cbn [app]. destruct (enter_attempt_feed ws body Hws Hb Hl false before) as (e & -> & Hc).
    do 2 eexists. split; [reflexivity|]. cbn [mcaps length]. rewrite Hc, Nat.add_0_r.
    reflexivity.
  - cbn [app]. rewrite enter_attempt_fail
      by (apply in_or_app; right; now left).
    destruct (IH (c :: before)) as (m & e & -> & Hc).
    do 2 eexists. split; [reflexivity|]. rewrite Hc. cbn [length]. do 2 f_equal; lia.
Qed.

Lemma match_enter_line (L ws body : str) :
  L = [] \/ (exists L', L = L' ++ [LF]) ->
  forallb is_indent_char ws = true ->
  match body with c :: _ => is_indent_char c = false | [] => True end ->
  ~ In LF body ->
  exists m,
    match_enter (L ++ ws ++ body) = Some m /\
    cap_lookup 2 (mcaps m) = Some (length L, length L + length ws).
Proof.
  intros HL Hws Hb Hl. unfold match_enter. destruct HL as [->|(L' & ->)].
  - cbn [app]. destruct (enter_attempt_start ws body Hws Hb Hl []) as (e & -> & Hc).
    eexists. split; [reflexivity|]. exact Hc.
  - rewrite <- app_assoc. cbn [app]. destruct L' as [|c L'].
    + cbn [app]. destruct (enter_attempt_feed ws body Hws Hb Hl true []) as (e & -> & Hc).
      eexists. split; [reflexivity|]. exact Hc.
    + cbn [app]. rewrite enter_attempt_fail by (apply in_or_app; right; now left).
      destruct (exec_enter ws body Hws Hb Hl L' [c]) as (m & e & -> & Hc).
      exists m. split; [reflexivity|]. rewrite Hc.
      cbn [length]. rewrite length_app. cbn [length]. do 2 f_equal; lia.
Qed.

Lemma take_while_split {A} (p : A -> bool) (l : list A) :
  exists body,
    l = take_while p l ++ body /\
    forallb p (take_while p l) = true /\
    match body with c :: _ => p c = false | [] => True end.
Proof.
  induction l as [|x l (body & E & Hall & Hb)]; cbn [take_while].
  - exists []. auto.
  - destruct (p x) eqn:Hx.
    + exists body. cbn [app forallb]. rewrite Hx, Hall. rewrite <- E. auto.
    + exists (x :: l). auto.
Qed.

Lemma slice_middle {A} (x w y : list A) :
  slice (x ++ w ++ y) (length x) (length x + length w) = w.
Proof.
  unfold slice. replace (length x + length w - length x) with (length w) by lia.
  induction x as [|a x IH]; cbn [app length skipn]; [|exact IH].
  induction w as [|b w IHw]; cbn [app length firstn]; [reflexivity|]. now rewrite IHw.
Qed.

(** a text is what comes before its last line, which is empty or ends with
    a line feed, followed by that last line *)
Lemma last_line_split (s : str) :
  exists L, s = L ++ last_line s /\
            (L = [] \/ exists L', L = L' ++ [LF]) /\ ~ In LF (last_line s).
Proof.
  destruct (last_feed s) as [Hno|(front & t & -> & Ht)].
  - exists []. rewrite last_line_none by assumption. auto.
  - exists (front ++ [LF]). rewrite last_line_after by assumption.
    rewrite <- app_assoc. split; [reflexivity|]. split; [right; eauto|assumption].
Qed.

Lemma match_enter_indent (upto : str) :
  exists m,
    match_enter upto = Some m /\
    arg plain_mk (info_of upto m) 2 = take_while is_indent_char (last_line upto).
Proof.
  destruct (last_line_split upto) as (L & E & HL & Hno).
  destruct (take_while_split is_indent_char (last_line upto)) as (body & Eb & Hws & Hb).
  set (ws := take_while is_indent_char (last_line upto)) in *.
  assert (Hbody : ~ In LF body).
  { intros Hin. apply Hno. rewrite Eb. apply in_or_app. now right. }
  destruct (match_enter_line L ws body HL Hws Hb Hbody) as (m & Hm & Hc).
  exists m. rewrite E at 1 2. rewrite Eb at 1 2. split; [exact Hm|].
  unfold arg, info_of. cbn [group]. rewrite Hc. apply slice_middle.
Qed.

(** X17.  The indentation that the Enter key copies is the run of spaces
    and tabs at the start of the line the caret is in, as far as that run
    lies before the caret; the pattern of line 326 always matches. *)
Theorem enterIndent_leading_whitespace (s : Session) :
  enterIndent s =
    take_while is_indent_char
      (last_line (firstn (selectionStart s) (editorValue s))).
Proof.
  unfold enterIndent, slice. rewrite Nat.sub_0_r. cbn [skipn].
  destruct (match_enter_indent (firstn (selectionStart s) (editorValue s)))
    as (m & -> & H).
  exact H.
Qed.

Lemma firstn_app_exact {A} (a b : list A) : firstn (length a) (a ++ b) = a.
Proof. induction a; cbn; [now destruct b|now f_equal]. Qed.

Lemma skipn_app_exact {A} (a b : list A) : skipn (length a) (a ++ b) = b.
Proof. induction a; cbn; auto. Qed.

(** X18.  With the selection inside the text, the Enter key replaces the
    selection by a line feed followed by the indentation of the line the
    selection starts in, and puts the caret after that indentation; a
    highlight is scheduled. *)
Theorem pressEnter_auto_indent (s : Session) :
  selection_ok s ->
  let indent := take_while is_indent_char
                  (last_line (firstn (selectionStart s) (editorValue s))) in
  let s' := pressEnter s in
  editorValue s' =
    firstn (selectionStart s) (editorValue s) ++ LF :: indent
      ++ skipn (selectionEnd s) (editorValue s) /\
  selectionStart s' = selectionStart s + 1 + length indent /\
  selectionEnd s' = selectionStart s + 1 + length indent /\
  raf s' = true.
Proof.
  intros [Hab Hb] indent s'. subst s'. unfold pressEnter.
  assert (Hindent : enterIndent s = indent).
  { unfold enterIndent, slice. rewrite Nat.sub_0_r. cbn [skipn].
    destruct (match_enter_indent (firstn (selectionStart s) (editorValue s)))
      as (m & -> & H).
    exact H. }
  rewrite Hindent.
  set (a := selectionStart s) in *. set (val := editorValue s) in *.
  set (head := firstn a val). set (tail := skipn (selectionEnd s) val).
  assert (Hhead : length head = a) by (unfold head; rewrite length_firstn; lia).
  unfold enterTimeout, typeText, scheduleHighlight.
  cbn [editorValue selectionStart selectionEnd with_editor with_raf raf].
  fold a val. unfold slice, slice_from. rewrite !Nat.sub_0_r. cbn [skipn].
  fold head tail. cbn [length].
  assert (E1 : firstn (a + 1) (head ++ [LF] ++ tail) = head ++ [LF]).
  { rewrite app_assoc. rewrite <- Hhead.
    replace (length head + 1) with (length (head ++ [LF]))
      by (rewrite length_app; reflexivity).
    apply firstn_app_exact. }
  assert (E2 : skipn (a + 1) (head ++ [LF] ++ tail) = tail).
  { rewrite app_assoc. rewrite <- Hhead.
    replace (length head + 1) with (length (head ++ [LF]))
      by (rewrite length_app; reflexivity).
    apply skipn_app_exact. }
  rewrite E1, E2.
  set (v := (head ++ [LF]) ++ indent ++ tail).
  assert (Hv : a + 1 + length indent <= length v).
  { unfold v. rewrite !length_app. cbn [length]. lia. }
  destruct (caret_put v (a + 1 + length indent)
              (with_raf true (with_editor (head ++ [LF] ++ tail) (a + 1) (a + 1) s)) Hv)
    as (H1 & H2 & H3).
  cbn [editorValue selectionStart selectionEnd with_raf raf] in *.
  rewrite H1, H2, H3. unfold v. rewrite <- app_assoc. cbn [app]. auto.
Qed.

Lemma pressEnter_auto_indent_witness :
  let s := with_editor (lit "if (x) {" ++ LF :: lit "    y = 1;") 19 19 initial in
  selection_ok s /\
  let indent := take_while is_indent_char
                  (last_line (firstn (selectionStart s) (editorValue s))) in
  let s' := pressEnter s in
  editorValue s' =
    firstn (selectionStart s) (editorValue s) ++ LF :: indent
      ++ skipn (selectionEnd s) (editorValue s) /\
  selectionStart s' = selectionStart s + 1 + length indent /\
  selectionEnd s' = selectionStart s + 1 + length indent /\
  raf s' = true.
Proof.
  set (s := with_editor (lit "if (x) {" ++ LF :: lit "    y = 1;") 19 19 initial).
  assert (H : selection_ok s) by (split; cbn; lia).
  split; [exact H|]. exact (pressEnter_auto_indent s H).
Defined.

(** ** The file tree *)

Lemma hd_error_app {A} (a b : list A) :
  hd_error (a ++ b) = match hd_error a with Some x => Some x | None => hd_error b end.
Proof. destruct a; reflexivity. Qed.

Lemma firstFileIn_files : forall n, firstFileIn n = hd_error (filesOf n).
Proof.
  fix IH 1. intros [f|name expanded children]; [reflexivity|].
  cbn [firstFileIn filesOf].
  induction children as [|x l IHl]; [reflexivity|].
  cbn [flat_map]. rewrite hd_error_app, <- (IH x), IHl. reflexivity.
Qed.

Lemma findFirstFile_depth_first_aux (nodes : list TreeNode) :
  findFirstFile nodes = hd_error (flat_map filesOf nodes).
Proof.
  induction nodes as [|n nodes IH]; [reflexivity|].
  cbn [findFirstFile flat_map]. now rewrite hd_error_app, firstFileIn_files, IH.
Qed.

(** X19.  [findFirstFile] returns the first file of the tree in depth-first
    order, whether or not the folders on the way are expanded, and null
    exactly when the tree holds no file. *)
Theorem findFirstFile_depth_first (nodes : list TreeNode) :
  findFirstFile nodes = hd_error (flat_map filesOf nodes).
Proof.
  induction nodes as [|n nodes IH]; [reflexivity|].
  cbn [findFirstFile flat_map]. now rewrite hd_error_app, firstFileIn_files, IH.
Qed.

(** X20.  The new-file button appends a file at the end of the root: the
    files of the tree are the old ones followed by the new one, the first
    file stays the first unless there was none, and the language given to
    the new node is the one [detectLanguage] reads off its name. *)
Theorem newFile_appends (now : nat) (tree : list TreeNode) :
  flat_map filesOf (newFile now tree) = flat_map filesOf tree ++ [newFileNode now] /\
  findFirstFile (newFile now tree) =
    match findFirstFile tree with
    | Some f => Some f
    | None => Some (newFileNode now)
    end /\
  node_language (newFileNode now) = Some (detectLanguage (node_name (newFileNode now))).
Proof.
  assert (E : flat_map filesOf (newFile now tree)
              = flat_map filesOf tree ++ [newFileNode now]).
  { unfold newFile. rewrite flat_map_app. reflexivity. }
  split; [exact E|]. split.
  - rewrite !findFirstFile_depth_first_aux, E, hd_error_app. reflexivity.
  - cbn [newFileNode node_language node_name]. f_equal. symmetry.
    rewrite app_assoc. detect_suffix (lit "untitled-" ++ dec now).
Qed.


(** ** highlightJS keeps the text *)

Lemma chained_weaken (ms : list mres) (cur cur' : nat) :
  cur' <= cur -> chained cur ms -> chained cur' ms.
Proof. destruct ms as [|m ms]; cbn [chained]; [auto|]. intros H (H1 & H2 & H3). repeat split; auto; lia. Qed.

Lemma scan_chained (r : regex) (fuel : nat) :
  forall before s, chained (length before) (scan fuel r before s).
Proof.
  induction fuel as [|fuel IH]; intros before s; [exact I|].
  rewrite scan_unfold. destruct (exec r before s) as [[m e]|] eqn:E; [|exact I].
  apply exec_forward in E as (_ & He & Hs & Hm).
  cbn [chained]. split; [exact Hs|]. split; [exact Hm|].
  destruct (mend m =? mstart m).
  - destruct (rest e) as [|c tl]; [exact I|].
    apply (chained_weaken _ (length (c :: pre e))); [|apply IH].
    cbn [length]. unfold pos in He. lia.
  - apply (chained_weaken _ (length (pre e))); [|apply IH].
    unfold pos in He. lia.
Qed.

Lemma matches_chained (g : bool) (r : regex) (s : str) : chained 0 (matches g r s).
Proof.
  unfold matches. destruct g; [apply (scan_chained r _ [] s)|].
  destruct (exec r [] s) as [[m e]|] eqn:E; [|exact I].
  apply exec_forward in E as (_ & _ & Hs & Hm). cbn [chained]. auto.
Qed.

Lemma exec_all (Q : mres -> Prop) (r : regex) :
  (forall st e, rmatch r st Some = Some e -> caps st = [] ->
                Q (MRes (pos st) (pos e) (caps e))) ->
  forall s before m e, exec r before s = Some (m, e) -> Q m.
Proof.
  intros HQ. induction s as [|c s IH]; intros before m e; rewrite exec_step.
  - destruct (rmatch r (MState before [] []) Some) as [e'|] eqn:E; [|discriminate].
    intros [= <- <-]. exact (HQ _ _ E eq_refl).
  - destruct (rmatch r (MState before (c :: s) []) Some) as [e'|] eqn:E.
    + intros [= <- <-]. exact (HQ _ _ E eq_refl).
    + apply IH.
Qed.

Lemma matches_all (Q : mres -> Prop) (g : bool) (r : regex) (s : str) :
  (forall st e, rmatch r st Some = Some e -> caps st = [] ->
                Q (MRes (pos st) (pos e) (caps e))) ->
  Forall Q (matches g r s).
Proof.
  intros HQ. unfold matches. destruct g.
  - generalize (S (S (length s))) as fuel. generalize (@nil ascii) as before.
    intros before fuel. revert before s.
    induction fuel as [|fuel IH]; intros before s; [constructor|].
    rewrite scan_unfold. destruct (exec r before s) as [[m e]|] eqn:E; [|constructor].
    constructor; [exact (exec_all Q r HQ _ _ _ _ E)|].
    destruct (mend m =? mstart m); [|apply IH].
    destruct (rest e); [constructor|apply IH].
  - destruct (exec r [] s) as [[m e]|] eqn:E; constructor; [|constructor].
    exact (exec_all Q r HQ _ _ _ _ E).
Qed.

Lemma group1_outer (a : regex) (st e : mstate) :
  rmatch (RGroup 1 a) st Some = Some e ->
  group1_whole (MRes (pos st) (pos e) (caps e)).
Proof.
  rewrite rmatch_group. intros H.
  apply rmatch_moves_forward in H as (st' & _ & [= <-]).
  unfold group1_whole. cbn [mcaps mstart mend caps]. now rewrite cap_lookup_set.
Qed.

Lemma rmatch_wordb (st : mstate) (k : cont) :
  rmatch RWordB st k =
  if xorb (at_word_char (hd_error (pre st))) (at_word_char (hd_error (rest st)))
  then k st else None.
Proof. reflexivity. Qed.

Lemma group1_between_boundaries (a : regex) (st e : mstate) :
  rmatch (RSeqs [RWordB; RGroup 1 a; RWordB]) st Some = Some e ->
  group1_whole (MRes (pos st) (pos e) (caps e)).
Proof.
  cbn [RSeqs]. rewrite rmatch_seq, rmatch_wordb.
  destruct (xorb _ _); [|discriminate].
  rewrite rmatch_seq, rmatch_group. intros H.
  apply rmatch_moves_forward in H as (st' & _ & H).
  rewrite rmatch_wordb in H. cbn [pre rest] in H.
  destruct (xorb _ _); [|discriminate]. injection H as <-.
  unfold group1_whole. cbn [mcaps mstart mend caps]. now rewrite cap_lookup_set.
Qed.

Lemma without_tags_app (a b : list tchar) :
  without_tags (a ++ b) = without_tags a ++ without_tags b.
Proof. apply filter_app. Qed.

Lemma without_tags_tag (l : str) : without_tags (put tmk Tag l) = [].
Proof. induction l; cbn; auto. Qed.

Lemma without_tags_span (kind : string) (body : list tchar) :
  without_tags (span tmk kind body) = without_tags body.
Proof.
  unfold span, span_open, span_close.
  rewrite !without_tags_app, !without_tags_tag, app_nil_r. reflexivity.
Qed.

Lemma pieces_of_tail {A} (tl : list A) (x y : nat) :
  firstn x tl ++ firstn y (skipn x tl) ++ skipn (x + y) tl = tl.
Proof.
  rewrite <- (firstn_skipn x tl) at 4. f_equal.
  rewrite <- (firstn_skipn y (skipn x tl)) at 2. f_equal.
  rewrite skipn_skipn. f_equal. lia.
Qed.

Lemma assemble_keeps_text (f : minfo tchar -> list tchar) (s : list tchar)
    (ms : list mres) :
  Forall (fun m => without_tags (f (info_of s m)) =
                   without_tags (slice s (mstart m) (mend m))) ms ->
  forall cur, chained cur ms ->
    without_tags (assemble f s ms cur (skipn cur s)) = without_tags (skipn cur s).
Proof.
  induction 1 as [|m ms Hm _ IH]; intros cur Hch; cbn [assemble]; [reflexivity|].
  destruct Hch as (H1 & H2 & H3).
  rewrite !without_tags_app, Hm.
  replace (skipn (mend m - cur) (skipn cur s)) with (skipn (mend m) s)
    by (rewrite skipn_skipn; f_equal; lia).
  rewrite (IH _ H3), <- !without_tags_app. f_equal.
  unfold slice.
  replace (skipn (mstart m) s) with (skipn (mstart m - cur) (skipn cur s))
    by (rewrite skipn_skipn; f_equal; lia).
  replace (skipn (mend m) s)
    with (skipn ((mstart m - cur) + (mend m - mstart m)) (skipn cur s))
    by (rewrite skipn_skipn; f_equal; lia).
  apply pieces_of_tail.
Qed.

Lemma replace_keeps_text (g : bool) (r : regex) (f : minfo tchar -> list tchar)
    (s : list tchar) :
  Forall (fun m => without_tags (f (info_of s m)) =
                   without_tags (slice s (mstart m) (mend m)))
         (matches g r (map tcode s)) ->
  without_tags (replace tcode g r f s) = without_tags s.
Proof.
  intros H. unfold replace.
  exact (assemble_keeps_text f s _ H 0 (matches_chained g r (map tcode s))).
Qed.

Lemma span_group1_keeps_text (kind : string) (g : bool) (r : regex) (s : list tchar) :
  (forall st e, rmatch r st Some = Some e -> caps st = [] ->
                group1_whole (MRes (pos st) (pos e) (caps e))) ->
  without_tags (replace tcode g r (fun m => span tmk kind (dollar m 1)) s)
  = without_tags s.
Proof.
  intros Hr. apply replace_keeps_text.
  eapply Forall_impl; [|exact (matches_all group1_whole g r (map tcode s) Hr)].
  intros m Hm. rewrite without_tags_span. unfold dollar, info_of. cbn [group].
  unfold group1_whole in Hm. now rewrite Hm.
Qed.

Lemma escapeHtml_no_tag (text : str) :
  without_tags (Traced.escapeHtml (Traced.source text)) =
  Traced.escapeHtml (Traced.source text).
Proof.
  unfold Traced.escapeHtml. rewrite (escapeHtml_chars tchar tcode tmk tcode_tmk).
  unfold Traced.source, without_tags.
  induction text as [|c text IH]; [reflexivity|].
  cbn [map flat_map]. rewrite filter_app. fold (without_tags). rewrite IH. f_equal.
  unfold escape_char. cbn [tcode tmk fst].
  destruct (aeqb "&" c); [reflexivity|].
  destruct (aeqb "<" c); [reflexivity|].
  destruct (aeqb ">" c); reflexivity.
Qed.

(** X22.  [highlightJS] changes no character of the escaped text and drops
    none: with the characters of the span tags it wrote taken out, its
    result is the result of [escapeHtml].  (The CSS and HTML highlighters
    do rewrite text: the CSS value rule escapes a second time, the HTML tag
    rule appends the offset of the match.) *)
Theorem highlightJS_keeps_text (text : str) :
  let out := Traced.highlightJS (Traced.source text) in
  Traced.erase out = Plain.highlightJS text /\
  Traced.erase (without_tags out) = Plain.escapeHtml text.
Proof.
  intros out. subst out. split.
  - rewrite erase_highlightJS. now rewrite erase_source.
  - rewrite <- (erase_source text) at 2. rewrite <- erase_escapeHtml.
    rewrite <- escapeHtml_no_tag. f_equal.
    unfold Traced.highlightJS, highlightJS.
    rewrite (span_group1_keeps_text "keyword" true re_js_keyword)
      by (intros st e H _; now apply group1_between_boundaries in H).
    rewrite (span_group1_keeps_text "number" true re_js_number)
      by (intros st e H _; now apply group1_between_boundaries in H).
    rewrite replace_keeps_text
      by (apply Forall_forall; intros m _; now rewrite without_tags_span).
    rewrite (span_group1_keeps_text "comment" true re_js_comment)
      by (intros st e H _; now apply group1_outer in H).
    reflexivity.
Qed.

(** ** One callback per scheduled frame *)


